(** * authselect: configuration-state verifier and profile-catalog merger

    A shallow embedding of
      - src/lib/authselect_check.c  (check_content ... authselect_check_conf),
      - src/lib/authselect_util.c   (read_textfile, check_mode, check_link,
                                     check_notalink, check_exists),
      - src/lib/authselect_dir.c    (sort_profile_ids, merge_default,
                                     merge_vendor, merge_custom,
                                     authselect_merge_profiles).

    Conventions.
      - A C string is the Rocq [string] of its bytes before the terminating
        NUL; a [char *] that may be NULL is an [option string].
      - A pointer into a string is the suffix it points at.
      - [errno_t] is [Z] with [EOK = 0]; the errno a failed system call
        leaves behind is a [positive] (POSIX: errno values are positive).
      - A [bool *] out-parameter is passed explicitly: the function takes the
        value the pointee holds on entry and returns the value it holds on
        exit, next to the return code.
      - ERROR/WARN/INFO only log; they are left out. *)

From Stdlib Require Import ZArith Lia Bool Ascii String Sorting.Sorted.
From stdpp Require Import base tactics option list sorting strings.

Local Open Scope string_scope.
Local Open Scope list_scope.
Local Open Scope Z_scope.

(** ** libc: characters and strings *)

Definition NUL : ascii := Ascii.zero.
Definition LF : ascii := "010"%char.
Definition HASH : ascii := "#"%char.

(** The value of a [char] read as [unsigned char]. *)
Definition uchar (c : ascii) : Z := Z.of_N (N_of_ascii c).

(** [s[0]]: the first byte, the terminator when the string is empty. *)
Definition deref (s : string) : ascii :=
  match s with
  | EmptyString => NUL
  | String c _ => c
  end.

(** [s + 1] for a pointer that does not stand on the terminator. *)
Definition next (s : string) : string :=
  match s with
  | EmptyString => EmptyString
  | String _ t => t
  end.

(** strchr(3) for a byte other than NUL: the suffix that starts at the first
    occurrence, NULL when there is none. *)
Fixpoint strchr (s : string) (c : ascii) : option string :=
  match s with
  | EmptyString => None
  | String a t => if Ascii.eqb a c then Some s else strchr t c
  end.

(** strcmp(3): bytes compared as unsigned char; only the sign of the result
    is specified, it is given as -1, 0 or 1. *)
Fixpoint strcmp (s1 s2 : string) : Z :=
  match s1, s2 with
  | EmptyString, EmptyString => 0
  | EmptyString, String _ _ => -1
  | String _ _, EmptyString => 1
  | String c1 t1, String c2 t2 =>
      if uchar c1 <? uchar c2 then -1
      else if uchar c2 <? uchar c1 then 1
      else strcmp t1 t2
  end.

(** strncmp(3): as strcmp, over at most [n] bytes. *)
Fixpoint strncmp (s1 s2 : string) (n : nat) : Z :=
  match n with
  | O => 0
  | S n' =>
      match s1, s2 with
      | EmptyString, EmptyString => 0
      | EmptyString, String _ _ => -1
      | String _ _, EmptyString => 1
      | String c1 t1, String c2 t2 =>
          if uchar c1 <? uchar c2 then -1
          else if uchar c2 <? uchar c1 then 1
          else strncmp t1 t2 n'
      end
  end.

(** The C string held by a zero-terminated buffer: the bytes before the
    first NUL. *)
Fixpoint c_str (buf : string) : string :=
  match buf with
  | EmptyString => EmptyString
  | String c t => if Ascii.eqb c NUL then EmptyString else String c (c_str t)
  end.

(** ** errno and <sys/stat.h> *)

Definition errno_t : Type := Z.

Definition EOK : errno_t := 0.
Definition ENOENT : errno_t := 2.
Definition EIO : errno_t := 5.
Definition ENOMEM : errno_t := 12.
Definition EACCES : errno_t := 13.

(** The octal constants 0170000, 0040000, 0100000, 0120000, 07777, 0777,
    0400, 0200, 0040 and 0004 of <sys/stat.h>. *)
Definition S_IFMT : Z := 0xF000.
Definition S_IFDIR : Z := 0x4000.
Definition S_IFREG : Z := 0x8000.
Definition S_IFLNK : Z := 0xA000.
Definition ALLPERMS : Z := 0xFFF.
Definition ACCESSPERMS : Z := 0x1FF.
Definition S_IRUSR : Z := 0x100.
Definition S_IWUSR : Z := 0x80.
Definition S_IRGRP : Z := 0x20.
Definition S_IROTH : Z := 0x4.

(** <limits.h> on Linux. *)
Definition PATH_MAX : nat := 4096.

(** [(uid_t)(-1)] and [(gid_t)(-1)]: uid_t and gid_t are unsigned 32-bit. *)
Definition ID_NONE : Z := 2 ^ 32 - 1.

Definition S_ISLNK (m : Z) : bool := Z.land m S_IFMT =? S_IFLNK.

Record stat := { st_mode : Z; st_uid : Z; st_gid : Z }.

(** The outcome of a system call: -1 with errno set, or its result. *)
Inductive sysret (A : Type) : Type :=
  | Fail (errno : positive)
  | Done (v : A).
Arguments Fail {A} errno.
Arguments Done {A} v.

(** What stdio reports for an open stream: fseek to the end, ftell there,
    the zeroed allocation of the buffer, and the bytes fread delivers. *)
Record FILE := {
  fseek_end : sysret unit;
  ftell : sysret nat;
  malloc_ok : bool;
  fread : string
}.

(** ** Tables of authselect_private.h and authselect_paths.h *)

Record authselect_symlink := { name : string; dest : string }.
Record authselect_generated := { path : string; content : option string }.

(** ** The host the verifier runs on

    The file system as the system calls see it, the collaborators of
    authselect_private.h (authselect_read_conf, authselect_cat) and the
    tables that header builds with macros: each table is the list of the
    entries before its NULL terminator. [indeterminate] is the value an
    automatic [bool] holds before its first assignment. *)
Record world := {
  authselect_files : Type;
  fopen : string -> sysret FILE;
  sys_access : string -> sysret unit;
  sys_lstat : string -> sysret stat;
  sys_readlink : string -> sysret string;
  authselect_read_conf : errno_t * (string * list string);
  authselect_cat : string -> list string -> errno_t * authselect_files;
  GENERATED_FILES : authselect_files -> list authselect_generated;
  GENERATED_FILES_PATHS : list authselect_generated;
  SYMLINK_FILES : list authselect_symlink;
  AUTHSELECT_UID : Z;
  AUTHSELECT_GID : Z;
  indeterminate : bool
}.

(** ** authselect_util.c *)

(** [_content] is the [char *] the caller's variable holds: [None] while it
    points at no string. *)
Definition read_textfile_internal (file : FILE) (_content : option string)
  : errno_t * option string :=
  match fseek_end file with
  | Fail e => (Z.pos e, _content)
  | Done _ =>
      match ftell file with
      | Fail e => (Z.pos e, _content)
      | Done filelen =>
          if negb (malloc_ok file) then (ENOMEM, _content)
          else
            let read_bytes := String.length (fread file) in
            if negb (Nat.eqb read_bytes filelen) then (EIO, _content)
            else (EOK, Some (c_str (fread file)))
      end
  end.

Definition read_textfile (w : world) (filepath : string)
    (_content : option string) : errno_t * option string :=
  match fopen w filepath with
  | Fail e => (Z.pos e, _content)
  | Done file => read_textfile_internal file _content
  end.

Definition check_type (statbuf : option stat) (mode : Z) : bool :=
  let exp_type := Z.land mode S_IFMT in
  match statbuf with
  | None => false
  | Some sb =>
      if negb (exp_type =? Z.land (st_mode sb) S_IFMT) then false else true
  end.

Definition check_mode (statbuf : option stat) (uid gid mode : Z) : bool :=
  let exp_perm := Z.land mode ALLPERMS in
  match statbuf with
  | None => false
  | Some sb =>
      let bret := check_type statbuf mode in
      if negb bret then false
      else if negb (exp_perm =? Z.land (st_mode sb) ALLPERMS) then false
      else if negb (uid =? ID_NONE) && negb (st_uid sb =? uid) then false
      else if negb (gid =? ID_NONE) && negb (st_gid sb =? gid) then false
      else true
  end.

Definition check_internal (w : world) (filepath : string) (uid gid mode : Z)
    (_result : bool) : errno_t * bool :=
  match sys_lstat w filepath with
  | Fail e =>
      let ret := Z.pos e in
      if ret =? ENOENT then (EOK, false) else (ret, _result)
  | Done statbuf => (EOK, check_mode (Some statbuf) uid gid mode)
  end.

Definition check_file (w : world) (filepath : string) (uid gid permissions : Z)
    (_result : bool) : errno_t * bool :=
  check_internal w filepath uid gid (Z.lor S_IFREG permissions) _result.

(** readlink(2) into a buffer of [bufsiz] bytes: the target, cut to the
    buffer, without a terminator; the result's length is the [len] the call
    returns. *)
Definition readlink (w : world) (linkpath : string) (bufsiz : nat)
  : sysret string :=
  match sys_readlink w linkpath with
  | Fail e => Fail e
  | Done target => Done (substring 0 bufsiz target)
  end.

Definition check_link (w : world) (linkpath destpath : string)
    (_result : bool) : errno_t * bool :=
  let '(ret, _result) :=
    check_internal w linkpath ID_NONE ID_NONE (Z.lor S_IFLNK ACCESSPERMS)
      _result in
  if negb (ret =? EOK) || Bool.eqb _result false then (ret, _result)
  else
    match readlink w linkpath (PATH_MAX + 1) with
    | Fail e => (Z.pos e, _result)
    | Done linkbuf =>
        let len := String.length linkbuf in
        if negb (strncmp linkbuf destpath len =? 0) then (EOK, false)
        else (EOK, true)
    end.

Definition check_notalink (w : world) (linkpath destpath : string)
    (_result : bool) : errno_t * bool :=
  match sys_lstat w linkpath with
  | Fail e =>
      let ret := Z.pos e in
      if ret =? ENOENT then (EOK, true) else (ret, _result)
  | Done statbuf =>
      if negb (S_ISLNK (st_mode statbuf)) then (EOK, true)
      else
        match readlink w linkpath (PATH_MAX + 1) with
        | Fail e => (Z.pos e, _result)
        | Done linkbuf =>
            let len := String.length linkbuf in
            if strncmp linkbuf destpath len =? 0 then (EOK, false)
            else (EOK, true)
        end
  end.

Definition check_access (w : world) (path : string) : errno_t :=
  match sys_access w path with
  | Done _ => EOK
  | Fail e => Z.pos e
  end.

Definition check_exists (w : world) (path : string) : errno_t :=
  check_access w path.

(** ** authselect_check.c *)

Definition check_content (content expected : string) : bool :=
  if negb (Ascii.eqb (deref content) HASH) then false
  else
    match strchr content LF with
    | None => false
    | Some nextline =>
        let nextline := next nextline in
        if negb (Ascii.eqb (deref nextline) HASH) then false
        else
          match strchr nextline LF with
          | None => false
          | Some nextline =>
              let nextline := next nextline in
              if negb (Ascii.eqb (deref nextline) LF) then false
              else
                let nextline := next nextline in
                strcmp nextline expected =? 0
          end
    end.

(** [content] and [bret] start out unassigned. Once read_textfile has
    returned EOK, [content] points at the text ([read_textfile_EOK]); the
    [None] branch below stands for a pointer that was never set. *)
Definition check_generated_file (w : world) (path : string)
    (expected_content : option string) (_is_valid : bool) : errno_t * bool :=
  let '(ret, content) := read_textfile w path None in
  if ret =? ENOENT then (EOK, false)
  else if ret =? EACCES then (EOK, false)
  else if negb (ret =? EOK) then (ret, _is_valid)
  else
    let expected_content :=
      match expected_content with
      | None => EmptyString
      | Some e => e
      end in
    let cmp :=
      match content with
      | Some c => check_content c expected_content
      | None => false
      end in
    if negb cmp then (EOK, false)
    else
      let '(ret, bret) :=
        check_file w path (AUTHSELECT_UID w) (AUTHSELECT_GID w)
          (Z.lor (Z.lor (Z.lor S_IRUSR S_IWUSR) S_IRGRP) S_IROTH)
          (indeterminate w) in
      if negb (ret =? EOK) then (ret, _is_valid)
      else (EOK, bret).

(** The loop of check_generated_files over [generated[i]], with the locals
    [is_valid_result] and [is_valid]; it yields the return code of an early
    return, or EOK and the final [is_valid_result]. *)
Fixpoint check_generated_files_loop (w : world)
    (generated : list authselect_generated) (is_valid_result is_valid : bool)
  : errno_t * bool :=
  match generated with
  | [] => (EOK, is_valid_result)
  | g :: rest =>
      let '(ret, is_valid) :=
        check_generated_file w (path g) (content g) is_valid in
      if negb (ret =? EOK) then (ret, is_valid_result)
      else
        check_generated_files_loop w rest (is_valid_result && is_valid)
          is_valid
  end.

Definition check_generated_files (w : world) (files : authselect_files w)
    (_is_valid : bool) : errno_t * bool :=
  let '(ret, is_valid_result) :=
    check_generated_files_loop w (GENERATED_FILES w files) true false in
  if negb (ret =? EOK) then (ret, _is_valid)
  else (EOK, is_valid_result).

Fixpoint check_symlinks_loop (w : world) (symlinks : list authselect_symlink)
    (is_valid_result is_valid : bool) : errno_t * bool :=
  match symlinks with
  | [] => (EOK, is_valid_result)
  | s :: rest =>
      let '(ret, is_valid) := check_link w (name s) (dest s) is_valid in
      if negb (ret =? EOK) then (ret, is_valid_result)
      else
        let is_valid_result :=
          if negb is_valid then is_valid_result && is_valid
          else is_valid_result in
        check_symlinks_loop w rest is_valid_result is_valid
  end.

Definition check_symlinks (w : world) (_is_valid : bool) : errno_t * bool :=
  let '(ret, is_valid_result) :=
    check_symlinks_loop w (SYMLINK_FILES w) true (indeterminate w) in
  if negb (ret =? EOK) then (ret, _is_valid)
  else (EOK, is_valid_result).

(** First loop of check_missing_conf: the generated files must be gone. *)
Fixpoint check_missing_files_loop (w : world)
    (generated : list authselect_generated) (is_valid_result : bool)
  : errno_t * bool :=
  match generated with
  | [] => (EOK, is_valid_result)
  | g :: rest =>
      let ret := check_exists w (path g) in
      if ret =? EOK then check_missing_files_loop w rest false
      else if negb (ret =? ENOENT) then (ret, is_valid_result)
      else check_missing_files_loop w rest is_valid_result
  end.

(** Second loop of check_missing_conf: no symbolic link of authselect is
    left. *)
Fixpoint check_missing_links_loop (w : world)
    (symlinks : list authselect_symlink)
    (is_valid_result is_valid_symlink : bool) : errno_t * bool :=
  match symlinks with
  | [] => (EOK, is_valid_result)
  | s :: rest =>
      let ret := check_exists w (name s) in
      if ret =? EOK then
        let '(ret, is_valid_symlink) :=
          check_notalink w (name s) (dest s) is_valid_symlink in
        if negb (ret =? EOK) then (ret, is_valid_result)
        else
          let is_valid_result :=
            if negb is_valid_symlink then false else is_valid_result in
          check_missing_links_loop w rest is_valid_result is_valid_symlink
      else if negb (ret =? ENOENT) then (ret, is_valid_result)
      else check_missing_links_loop w rest is_valid_result is_valid_symlink
  end.

Definition check_missing_conf (w : world) (_is_valid : bool)
  : errno_t * bool :=
  let '(ret, is_valid_result) :=
    check_missing_files_loop w (GENERATED_FILES_PATHS w) true in
  if negb (ret =? EOK) then (ret, _is_valid)
  else
    let '(ret, is_valid_result) :=
      check_missing_links_loop w (SYMLINK_FILES w) is_valid_result
        (indeterminate w) in
    if negb (ret =? EOK) then (ret, _is_valid)
    else (EOK, is_valid_result).

Definition check_existing_conf (w : world) (profile_id : string)
    (features : list string) (_is_valid : bool) : errno_t * bool :=
  let is_valid_result := true in
  let '(ret, files) := authselect_cat w profile_id features in
  if negb (ret =? EOK) then (ret, _is_valid)
  else
    let '(ret, is_valid) := check_generated_files w files (indeterminate w) in
    if negb (ret =? EOK) then (ret, _is_valid)
    else
      let is_valid_result := is_valid_result && is_valid in
      let '(ret, is_valid) := check_symlinks w is_valid in
      if negb (ret =? EOK) then (ret, _is_valid)
      else
        let is_valid_result := is_valid_result && is_valid in
        (EOK, is_valid_result).

Definition authselect_check_conf (w : world) (_is_valid : bool)
  : errno_t * bool :=
  let '(ret, (profile_id, features)) := authselect_read_conf w in
  if ret =? ENOENT then
    let '(ret, _is_valid) := check_missing_conf w _is_valid in
    if negb (ret =? EOK) then (ret, _is_valid)
    else (ENOENT, _is_valid)
  else if negb (ret =? EOK) then (ret, _is_valid)
  else check_existing_conf w profile_id features _is_valid.

Fixpoint check_symlinks_presence_loop (w : world)
    (symlinks : list authselect_symlink) (exist : bool) : errno_t * bool :=
  match symlinks with
  | [] => (EOK, exist)
  | s :: rest =>
      let ret := check_exists w (name s) in
      if ret =? EOK then check_symlinks_presence_loop w rest true
      else if negb (ret =? ENOENT) then (ret, exist)
      else check_symlinks_presence_loop w rest exist
  end.

Definition authselect_check_symlinks_presence (w : world) (_exist : bool)
  : errno_t * bool :=
  let '(ret, exist') :=
    check_symlinks_presence_loop w (SYMLINK_FILES w) false in
  if negb (ret =? EOK) then (ret, _exist)
  else (EOK, exist').

(** ** authselect_dir.c *)

(** [struct authselect_dir], as far as the merge reads it: [profiles] is the
    array before its NULL terminator, and [num_profiles], which
    authselect_dir_add_profile keeps equal to the number of entries, is its
    length. *)
Record authselect_dir := { dir_path : string; profiles : list string }.

Definition num_profiles (dir : authselect_dir) : nat :=
  length (profiles dir).

(** qsort(3). The C library leaves the algorithm open; insertion sort stands
    for it here: [compar x y <= 0] puts [x] before [y]. The first [nmemb]
    elements are sorted, the rest of the array is left alone. *)
Fixpoint qsort_insert {A} (compar : A -> A -> Z) (x : A) (l : list A)
  : list A :=
  match l with
  | [] => [x]
  | y :: l' =>
      if compar x y <=? 0 then x :: y :: l' else y :: qsort_insert compar x l'
  end.

Definition qsort {A} (base : list A) (nmemb : nat) (compar : A -> A -> Z)
  : list A :=
  foldr (qsort_insert compar) [] (take nmemb base) ++ drop nmemb base.

(** A NULL-terminated [char **] read as a list: the strings before the first
    NULL. *)
Fixpoint string_array (ids : list (option string)) : list string :=
  match ids with
  | Some s :: rest => s :: string_array rest
  | _ => []
  end.

Section Merger.

(** Whether the allocation strdup(3) makes for a copy of [s] fails, and
    whether calloc(3) of [n] pointers fails. *)
Variable strdup_fails : string -> bool.
Variable calloc_fails : nat -> bool.

(** authselect_private.h declares both; their bodies are in another file.
    authselect_profile_custom_id allocates the identifier and returns NULL
    when that fails; authselect_is_custom_profile is called with a NULL
    second argument, so it only answers. *)
Variable authselect_profile_custom_id : string -> option string.
Variable authselect_is_custom_profile : string -> bool.

Definition strdup (s : string) : option string :=
  if strdup_fails s then None else Some s.

Definition sort_profile_ids (a b : option string) : Z :=
  match a with
  | None => 1
  | Some str_a =>
      match b with
      | None => -1
      | Some str_b =>
          let is_custom_a := authselect_is_custom_profile str_a in
          let is_custom_b := authselect_is_custom_profile str_b in
          if is_custom_a && negb is_custom_b then 1
          else if negb is_custom_a && is_custom_b then -1
          else strcmp str_a str_b
      end
  end.

(** The loops run over [dir->profiles[i]] for [i < dir->num_profiles]; the
    state is the array [ids] and [*index]. The array has one slot more than
    there are profiles, so every store is inside it. *)
Fixpoint merge_default_loop (profiles : list string)
    (ids : list (option string)) (index : nat)
  : errno_t * list (option string) * nat :=
  match profiles with
  | [] => (EOK, ids, index)
  | p :: rest =>
      let ids := <[index := strdup p]> ids in
      match strdup p with
      | None => (ENOMEM, ids, index)
      | Some _ => merge_default_loop rest ids (S index)
      end
  end.

Definition merge_default (ids : list (option string)) (index : nat)
    (dir : authselect_dir) : errno_t * list (option string) * nat :=
  merge_default_loop (profiles dir) ids index.

(** The inner loop of merge_vendor: the first [j < input_index] with
    [strcmp(profile, ids[j]) == 0], or [input_index]. [l] is what is left
    of [ids[0 .. input_index)]; these slots were filled by merge_default,
    a NULL among them stands for no match. *)
Fixpoint merge_vendor_find (profile : string) (l : list (option string))
    (j : nat) : nat :=
  match l with
  | [] => j
  | id :: l' =>
      match id with
      | Some s =>
          if strcmp profile s =? 0 then j
          else merge_vendor_find profile l' (S j)
      | None => merge_vendor_find profile l' (S j)
      end
  end.

Fixpoint merge_vendor_loop (profiles : list string) (input_index : nat)
    (ids : list (option string)) (index : nat)
  : errno_t * list (option string) * nat :=
  match profiles with
  | [] => (EOK, ids, index)
  | p :: rest =>
      let j := merge_vendor_find p (take input_index ids) 0 in
      if negb (Nat.eqb j input_index) then
        merge_vendor_loop rest input_index ids index
      else
        let ids := <[index := strdup p]> ids in
        match strdup p with
        | None => (ENOMEM, ids, index)
        | Some _ => merge_vendor_loop rest input_index ids (S index)
        end
  end.

Definition merge_vendor (ids : list (option string)) (index : nat)
    (dir : authselect_dir) : errno_t * list (option string) * nat :=
  let input_index := index in
  merge_vendor_loop (profiles dir) input_index ids index.

Fixpoint merge_custom_loop (profiles : list string)
    (ids : list (option string)) (index : nat)
  : errno_t * list (option string) * nat :=
  match profiles with
  | [] => (EOK, ids, index)
  | p :: rest =>
      let ids := <[index := authselect_profile_custom_id p]> ids in
      match authselect_profile_custom_id p with
      | None => (ENOMEM, ids, index)
      | Some _ => merge_custom_loop rest ids (S index)
      end
  end.

Definition merge_custom (ids : list (option string)) (index : nat)
    (dir : authselect_dir) : errno_t * list (option string) * nat :=
  merge_custom_loop (profiles dir) ids index.

(** The result is the array of [num_profiles + 1] pointers, or [None] for
    the NULL of a failed allocation. *)
Definition authselect_merge_profiles (profile vendor custom : authselect_dir)
  : option (list (option string)) :=
  let num_profiles :=
    (num_profiles profile + num_profiles vendor + num_profiles custom)%nat in
  if calloc_fails (num_profiles + 1)%nat then None
  else
    let ids := replicate (num_profiles + 1)%nat None in
    let index := 0%nat in
    let '(ret, ids, index) := merge_default ids index profile in
    if negb (ret =? EOK) then None
    else
      let '(ret, ids, index) := merge_vendor ids index vendor in
      if negb (ret =? EOK) then None
      else
        let '(ret, ids, index) := merge_custom ids index custom in
        if negb (ret =? EOK) then None
        else Some (qsort ids (index + 1)%nat sort_profile_ids).

End Merger.

(** Modelled from the spec: authselect_profile_custom_id, whose body is not
    in authselect_dir.c. The spec has it turn an identifier into its
    custom-namespaced form and shows "mine" become "custom/mine"; the
    allocation is taken to succeed. *)
Definition spec_profile_custom_id (name : string) : option string :=
  Some (String.append "custom/" name).

(** Modelled from the spec: authselect_is_custom_profile, whose body is not
    in authselect_dir.c. An identifier is custom when it carries the prefix
    that spec_profile_custom_id adds. *)
Definition spec_is_custom_profile (id : string) : bool :=
  String.prefix "custom/" id.

(** The merge on a host where no allocation fails, over the listings of
    three directories. *)
Definition merge_catalog (default vendor custom : list string)
  : option (list (option string)) :=
  authselect_merge_profiles (fun _ => false) (fun _ => false)
    spec_profile_custom_id spec_is_custom_profile
    {| dir_path := "default"; profiles := default |}
    {| dir_path := "vendor"; profiles := vendor |}
    {| dir_path := "custom"; profiles := custom |}.

(** ** authselect_util.c: trimline *)

Definition EINVAL : errno_t := 22.

(** isspace(3) in the C locale: space, and the bytes 9 to 13 (\t \n \v \f
    \r). *)
Definition isspace (c : ascii) : bool :=
  let n := N_of_ascii c in
  ((n =? 32) || ((9 <=? n) && (n <=? 13)))%N.

(** [str[i]]: the byte at offset [i], the terminator at the end of the
    string. *)
Definition byte_at (str : string) (i : nat) : ascii :=
  match String.get i str with
  | Some c => c
  | None => NUL
  end.

(** [while (isspace( *str)) str++]. *)
Fixpoint trimline_begin (str : string) : string :=
  match str with
  | EmptyString => EmptyString
  | String c t => if isspace c then trimline_begin t else str
  end.

(** [while (end > str && isspace( *end)) end--], with [end] as the offset
    from [str]. *)
Fixpoint trimline_end (str : string) (end_ : nat) : nat :=
  match end_ with
  | O => O
  | S e => if isspace (byte_at str end_) then trimline_end str e else end_
  end.

(** [strndup_fails] says whether the allocation strndup(3) makes for a copy
    of a part of [str] fails; [end - str + 1] is [end_ + 1], [end_] being
    the offset. [_trimmed] is the [char *] the caller's variable holds,
    [None] for NULL. *)
Definition trimline (strndup_fails : string -> bool) (str : string)
    (_trimmed : option string) : errno_t * option string :=
  let str := trimline_begin str in
  if Ascii.eqb (deref str) NUL then (EOK, None)
  else
    let end_ := trimline_end str (String.length str - 1) in
    let dup :=
      if strndup_fails str then None
      else Some (substring 0 (end_ + 1) str) in
    match dup with
    | None => (ENOMEM, _trimmed)
    | Some dup => (EOK, Some dup)
    end.

(** ** authselect_dir.c: reading a profile directory *)

Definition S_ISDIR (m : Z) : bool := Z.land m S_IFMT =? S_IFDIR.

(** An open directory stream: the names readdir(3) returns, in its order;
    the errno readdir leaves when it fails after them ([None] when it ends
    the stream with errno untouched); the descriptor dirfd(3) gives; and
    what fstatat(2) on that descriptor, with flags 0, answers for a name. *)
Record DIR := {
  d_entries : list string;
  d_errno : option positive;
  d_fd : sysret Z;
  d_fstatat : string -> sysret stat
}.

(** [struct authselect_dir] with all its fields. [ad_profiles] is the array
    [profiles] slot by slot, [None] for a NULL pointer. *)
Record struct_authselect_dir := {
  ad_fd : Z;
  ad_dirstream : option DIR;
  ad_path : string;
  ad_profiles : list (option string);
  ad_num_profiles : nat
}.

(** The directory as authselect_merge_profiles reads it. *)
Definition dir_view (dir : struct_authselect_dir) : authselect_dir :=
  {| dir_path := ad_path dir;
     profiles := string_array (take (ad_num_profiles dir) (ad_profiles dir)) |}.

(** reallocarray(3) to [nmemb] pointers: the old slots that fit are kept; a
    slot that is added holds no defined pointer yet and is shown as
    [None]. *)
Definition reallocarray (old : list (option string)) (nmemb : nat)
  : list (option string) :=
  take nmemb (old ++ replicate nmemb None).

Section DirReader.

(** opendir(3), and whether an allocation fails: calloc of the struct,
    calloc of [n] pointers, strdup of a string, reallocarray to [n]
    pointers. *)
Variable opendir : string -> sysret DIR.
Variable calloc_dir_fails : bool.
Variable calloc_fails : nat -> bool.
Variable strdup_fails : string -> bool.
Variable reallocarray_fails : nat -> bool.

Definition authselect_dir_add_profile (dir : struct_authselect_dir)
    (name : option string) : errno_t * struct_authselect_dir :=
  match name with
  | None => (EINVAL, dir)
  | Some name =>
      match strdup strdup_fails name with
      | None => (ENOMEM, dir)
      | Some profile =>
          if reallocarray_fails (ad_num_profiles dir + 2)%nat
          then (ENOMEM, dir)
          else
            let resized :=
              reallocarray (ad_profiles dir) (ad_num_profiles dir + 2) in
            let resized := <[ad_num_profiles dir := Some profile]> resized in
            let resized := <[(ad_num_profiles dir + 1)%nat := None]> resized in
            (EOK,
             {| ad_fd := ad_fd dir;
                ad_dirstream := ad_dirstream dir;
                ad_path := ad_path dir;
                ad_profiles := resized;
                ad_num_profiles := S (ad_num_profiles dir) |})
      end
  end.

(** [_dir] is the pointer the caller's variable holds, [None] while it
    points at no struct. *)
Definition authselect_dir_init (path : option string)
    (_dir : option struct_authselect_dir)
  : errno_t * option struct_authselect_dir :=
  match path with
  | None => (EINVAL, _dir)
  | Some path =>
      if calloc_dir_fails then (ENOMEM, _dir)
      else
        match strdup strdup_fails path with
        | None => (ENOMEM, _dir)
        | Some dir_path =>
            if calloc_fails 1 then (ENOMEM, _dir)
            else
              (EOK,
               Some {| ad_fd := -1;
                       ad_dirstream := None;
                       ad_path := dir_path;
                       ad_profiles := [None];
                       ad_num_profiles := 0 |})
        end
  end.

(** The local [dir] is unassigned before authselect_dir_init; when that
    returns EOK it points at the struct and [path] is not NULL. The last
    branch is taken when authselect_dir_init fails. *)
Definition authselect_dir_open (path : option string)
    (_dir : option struct_authselect_dir)
  : errno_t * option struct_authselect_dir :=
  let '(ret, dir) := authselect_dir_init path None in
  match ret =? EOK, dir, path with
  | true, Some dir, Some path =>
      match opendir path with
      | Fail e =>
          let ret := Z.pos e in
          if ret =? ENOENT then (ret, Some dir) else (ret, _dir)
      | Done dirstream =>
          match d_fd dirstream with
          | Fail e => (Z.pos e, _dir)
          | Done fd =>
              (EOK,
               Some {| ad_fd := fd;
                       ad_dirstream := Some dirstream;
                       ad_path := ad_path dir;
                       ad_profiles := ad_profiles dir;
                       ad_num_profiles := ad_num_profiles dir |})
          end
      end
  | _, _, _ => (ret, _dir)
  end.

(** The loop of authselect_dir_read over the entries readdir returns, and
    the test of errno after it; errno is 0 when the loop starts and only
    readdir sets it. *)
Fixpoint authselect_dir_read_loop (dirstream : DIR) (entries : list string)
    (dir : struct_authselect_dir) : errno_t * struct_authselect_dir :=
  match entries with
  | [] =>
      match d_errno dirstream with
      | Some e => (Z.pos e, dir)
      | None => (EOK, dir)
      end
  | d_name :: rest =>
      if (strcmp d_name "." =? 0) || (strcmp d_name ".." =? 0)
      then authselect_dir_read_loop dirstream rest dir
      else
        match d_fstatat dirstream d_name with
        | Fail e => (Z.pos e, dir)
        | Done statres =>
            if negb (S_ISDIR (st_mode statres))
            then authselect_dir_read_loop dirstream rest dir
            else
              let '(ret, dir) :=
                authselect_dir_add_profile dir (Some d_name) in
              if negb (ret =? EOK) then (ret, dir)
              else authselect_dir_read_loop dirstream rest dir
        end
  end.

(** The last branch stands for a [dir] without a stream after
    authselect_dir_open returned EOK, which does not happen. *)
Definition authselect_dir_read (dirpath : option string)
    (_dir : option struct_authselect_dir)
  : errno_t * option struct_authselect_dir :=
  let '(ret, dir) := authselect_dir_open dirpath None in
  if ret =? ENOENT then (EOK, dir)
  else if negb (ret =? EOK) then (ret, _dir)
  else
    match dir with
    | Some dir =>
        match ad_dirstream dir with
        | Some dirstream =>
            let '(ret, dir) :=
              authselect_dir_read_loop dirstream (d_entries dirstream) dir in
            if negb (ret =? EOK) then (ret, _dir)
            else (EOK, Some dir)
        | None => (ret, _dir)
        end
    | None => (ret, _dir)
    end.

End DirReader.

(** ** Hosts to run the verifier on *)

(** What the system calls answer for one path. *)
Record node := {
  n_fopen : sysret FILE;
  n_access : sysret unit;
  n_lstat : sysret stat;
  n_readlink : sysret string
}.

(** errno numbers of <errno.h> for the calls below. *)
Definition errno_ENOENT : positive := 2.
Definition errno_EACCES : positive := 13.
Definition errno_EISDIR : positive := 21.
Definition errno_EINVAL : positive := 22.

(** No such file or directory. *)
Definition absent : node :=
  {| n_fopen := Fail errno_ENOENT; n_access := Fail errno_ENOENT;
     n_lstat := Fail errno_ENOENT; n_readlink := Fail errno_ENOENT |}.

(** A path below a directory the caller may not search. *)
Definition unreachable : node :=
  {| n_fopen := Fail errno_EACCES; n_access := Fail errno_EACCES;
     n_lstat := Fail errno_EACCES; n_readlink := Fail errno_EACCES |}.

(** A regular file with the given mode bits, owned by root, holding
    [bytes]. *)
Definition regular_file (perm : Z) (bytes : string) : node :=
  {| n_fopen :=
       Done {| fseek_end := Done tt; ftell := Done (String.length bytes);
               malloc_ok := true; fread := bytes |};
     n_access := Done tt;
     n_lstat := Done {| st_mode := Z.lor S_IFREG perm; st_uid := 0;
                        st_gid := 0 |};
     n_readlink := Fail errno_EINVAL |}.

(** A regular file the caller may not open for reading. *)
Definition unreadable_file (perm : Z) : node :=
  {| n_fopen := Fail errno_EACCES;
     n_access := Done tt;
     n_lstat := Done {| st_mode := Z.lor S_IFREG perm; st_uid := 0;
                        st_gid := 0 |};
     n_readlink := Fail errno_EINVAL |}.

(** A symbolic link with the given mode bits to an existing directory. *)
Definition symlink_to (perm : Z) (target : string) : node :=
  {| n_fopen := Fail errno_EISDIR;
     n_access := Done tt;
     n_lstat := Done {| st_mode := Z.lor S_IFLNK perm; st_uid := 0;
                        st_gid := 0 |};
     n_readlink := Done target |}.

Fixpoint fs_find (fs : list (string * node)) (p : string) : node :=
  match fs with
  | [] => absent
  | (q, n) :: fs' => if String.eqb p q then n else fs_find fs' p
  end.

(** A host with the file system [fs], where authselect_read_conf returns
    [conf_ret] for the profile "sssd" without features, authselect_cat
    returns [cat_ret], and the tables list [generated] and [symlinks]. *)
Definition host (fs : list (string * node)) (conf_ret cat_ret : errno_t)
    (generated : list authselect_generated)
    (symlinks : list authselect_symlink) : world :=
  {| authselect_files := unit;
     fopen := fun p => n_fopen (fs_find fs p);
     sys_access := fun p => n_access (fs_find fs p);
     sys_lstat := fun p => n_lstat (fs_find fs p);
     sys_readlink := fun p => n_readlink (fs_find fs p);
     authselect_read_conf := (conf_ret, ("sssd", []));
     authselect_cat := fun _ _ => (cat_ret, tt);
     GENERATED_FILES := fun _ => generated;
     GENERATED_FILES_PATHS :=
       map (fun g => {| path := path g; content := None |}) generated;
     SYMLINK_FILES := symlinks;
     AUTHSELECT_UID := 0;
     AUTHSELECT_GID := 0;
     indeterminate := false |}.

(** Every line followed by a line feed. *)
Fixpoint unlines (ls : list string) : string :=
  match ls with
  | [] => EmptyString
  | l :: ls' => String.append l (String LF (unlines ls'))
  end.

Definition nsswitch_body : string := unlines ["passwd: files sss"].

Definition nsswitch_text : string :=
  unlines ["# Generated by authselect on Thu Feb  1 10:00:00 2018";
           "# Do not modify this file manually."; "";
           "passwd: files sss"].

Definition nsswitch_generated : authselect_generated :=
  {| path := "/etc/authselect/nsswitch.conf";
     content := Some nsswitch_body |}.

Definition nsswitch_symlink : authselect_symlink :=
  {| name := "/etc/nsswitch.conf"; dest := "/etc/authselect/nsswitch.conf" |}.

(** rw-r--r-- and rwxrwxrwx. *)
Definition perm_0644 : Z :=
  Z.lor (Z.lor (Z.lor S_IRUSR S_IWUSR) S_IRGRP) S_IROTH.
Definition perm_0755 : Z := 0x1ED.

(** The profile is selected and everything is in place. *)
Definition host_configured : world :=
  host [("/etc/authselect/nsswitch.conf", regular_file perm_0644 nsswitch_text);
        ("/etc/nsswitch.conf",
         symlink_to ACCESSPERMS "/etc/authselect/nsswitch.conf")]
    EOK EOK [nsswitch_generated] [nsswitch_symlink].

(** The generated file was edited: the empty line after the two comment
    lines is gone. *)
Definition host_edited : world :=
  host [("/etc/authselect/nsswitch.conf",
         regular_file perm_0644
           (unlines ["# Generated by authselect";
                     "# Do not modify this file manually.";
                     "passwd: files sss"]));
        ("/etc/nsswitch.conf",
         symlink_to ACCESSPERMS "/etc/authselect/nsswitch.conf")]
    EOK EOK [nsswitch_generated] [nsswitch_symlink].

(** The generated file may not be read; the link is in place. *)
Definition host_file_unreadable : world :=
  host [("/etc/authselect/nsswitch.conf", unreadable_file 0x180);
        ("/etc/nsswitch.conf",
         symlink_to ACCESSPERMS "/etc/authselect/nsswitch.conf")]
    EOK EOK [nsswitch_generated] [nsswitch_symlink].

(** The generated file is readable, the directory of the link may not be
    searched. *)
Definition host_link_unreachable : world :=
  host [("/etc/authselect/nsswitch.conf", regular_file perm_0644 nsswitch_text);
        ("/etc/nsswitch.conf", unreachable)]
    EOK EOK [nsswitch_generated] [nsswitch_symlink].

(** The link points at the directory /etc/authselect, a proper prefix of the
    expected destination. *)
Definition host_configured_dir_link : world :=
  host [("/etc/authselect/nsswitch.conf", regular_file perm_0644 nsswitch_text);
        ("/etc/nsswitch.conf", symlink_to ACCESSPERMS "/etc/authselect")]
    EOK EOK [nsswitch_generated] [nsswitch_symlink].

(** The link has the right target and the mode bits rwxr-xr-x. *)
Definition host_configured_0755_link : world :=
  host [("/etc/authselect/nsswitch.conf", regular_file perm_0644 nsswitch_text);
        ("/etc/nsswitch.conf",
         symlink_to perm_0755 "/etc/authselect/nsswitch.conf")]
    EOK EOK [nsswitch_generated] [nsswitch_symlink].

(** No profile is selected, no generated file is left, and the
    administrator has a link /etc/nsswitch.conf -> /etc/authselect. *)
Definition host_unconfigured_dir_link : world :=
  host [("/etc/nsswitch.conf", symlink_to ACCESSPERMS "/etc/authselect")]
    ENOENT EOK [nsswitch_generated] [nsswitch_symlink].

(** No profile is selected and /etc/authselect may not be searched. *)
Definition host_unconfigured_unreachable : world :=
  host [("/etc/authselect/nsswitch.conf", unreachable)]
    ENOENT EOK [nsswitch_generated] [nsswitch_symlink].

(** A profile is selected and authselect_cat fails on it. *)
Definition host_cat_fails : world :=
  host [("/etc/authselect/nsswitch.conf", regular_file perm_0644 nsswitch_text);
        ("/etc/nsswitch.conf",
         symlink_to ACCESSPERMS "/etc/authselect/nsswitch.conf")]
    EOK EIO [nsswitch_generated] [nsswitch_symlink].

(** ** Vocabulary of the statements *)

(** A symbolic link whose target does not exist: access(2), which follows
    the link, reports ENOENT; lstat and readlink see the link. *)
Definition dangling_symlink_to (target : string) : node :=
  {| n_fopen := Fail errno_ENOENT;
     n_access := Fail errno_ENOENT;
     n_lstat := Done {| st_mode := Z.lor S_IFLNK ACCESSPERMS; st_uid := 0;
                        st_gid := 0 |};
     n_readlink := Done target |}.

(** No profile is selected and the generated file is removed, but the link
    authselect made is still there. *)
Definition host_unconfigured_dangling_link : world :=
  host [("/etc/nsswitch.conf",
         dangling_symlink_to "/etc/authselect/nsswitch.conf")]
    ENOENT EOK [nsswitch_generated] [nsswitch_symlink].

(** No profile is selected; the generated file and a regular file at the
    path of the link are there. *)
Definition host_unconfigured_files_left : world :=
  host [("/etc/authselect/nsswitch.conf", regular_file perm_0644 nsswitch_text);
        ("/etc/nsswitch.conf", regular_file perm_0644 nsswitch_body)]
    ENOENT EOK [nsswitch_generated] [nsswitch_symlink].

(** The generated file ends with a NUL byte and more bytes after it. *)
Definition host_configured_NUL : world :=
  host [("/etc/authselect/nsswitch.conf",
         regular_file perm_0644
           (String.append nsswitch_text (String NUL "passwd: files")));
        ("/etc/nsswitch.conf",
         symlink_to ACCESSPERMS "/etc/authselect/nsswitch.conf")]
    EOK EOK [nsswitch_generated] [nsswitch_symlink].

(** The struct of a directory that holds the profiles [names]: the array
    has them in its first slots and NULL in the last one. *)
Definition dir_with (fd : Z) (dirstream : option DIR) (path : string)
    (names : list string) : struct_authselect_dir :=
  {| ad_fd := fd;
     ad_dirstream := dirstream;
     ad_path := path;
     ad_profiles := (Some <$> names) ++ [None];
     ad_num_profiles := length names |}.

(** The entry is not "." or "..", and fstatat finds a directory. *)
Definition is_profile_entry (dirstream : DIR) (d_name : string) : bool :=
  negb (String.eqb d_name "." || String.eqb d_name "..")
  && match d_fstatat dirstream d_name with
     | Done statres => S_ISDIR (st_mode statres)
     | Fail _ => false
     end.

(** The entry is "." or "..", or fstatat succeeds on it. *)
Definition entry_readable (dirstream : DIR) (d_name : string) : Prop :=
  d_name = "." \/ d_name = ".."
  \/ exists statres : stat, d_fstatat dirstream d_name = Done statres.

(** A directory of profiles: two profiles and a file; with [extra], a
    symbolic link "old" whose target is gone is listed after "sssd". *)
Definition profile_stream (extra : bool) (errno : option positive) : DIR :=
  {| d_entries :=
       ["."; ".."; "sssd"] ++ (if extra then ["old"] else [])
       ++ ["README"; "winbind"];
     d_errno := errno;
     d_fd := Done 3;
     d_fstatat := fun d_name =>
       if String.eqb d_name "old" then Fail errno_ENOENT
       else if String.eqb d_name "README"
       then Done {| st_mode := Z.lor S_IFREG perm_0644; st_uid := 0;
                    st_gid := 0 |}
       else Done {| st_mode := Z.lor S_IFDIR perm_0755; st_uid := 0;
                    st_gid := 0 |} |}.

(** opendir on a host with the default profiles in place and no vendor
    directory. *)
Definition opendir_default (extra : bool) (errno : option positive)
    (path : string) : sysret DIR :=
  if String.eqb path "/usr/share/authselect/default"
  then Done (profile_stream extra errno)
  else Fail errno_ENOENT.

(** Every byte of the string is white space. *)
Fixpoint all_space (s : string) : bool :=
  match s with
  | EmptyString => true
  | String c t => isspace c && all_space t
  end.

(** access(2) answers EOK or ENOENT for the path. *)
Definition probed (w : world) (p : string) : Prop :=
  check_exists w p = EOK \/ check_exists w p = ENOENT.

(** The leftover check counts the link as one that authselect left. *)
Definition link_left (w : world) (s : authselect_symlink) : bool :=
  (check_exists w (name s) =? EOK)
  && negb (snd (check_notalink w (name s) (dest s) false)).


(** A line's text: no line feed in it. *)
Definition line (l : string) : Prop := ~ In LF (list_ascii_of_string l).

(** The layout of a generated file: a comment line, a second comment line,
    an empty line, the body. *)
Definition generated_layout (content body : string) : Prop :=
  exists l1 l2 : string,
    line l1 /\ line l2 /\
    content =
      String HASH (String.append l1 (String LF
        (String HASH (String.append l2 (String LF (String LF body)))))).

(** The host [w] with [b] for the value of an unassigned [bool]. *)
Definition with_indeterminate (w : world) (b : bool) : world :=
  {| authselect_files := authselect_files w;
     fopen := fopen w;
     sys_access := sys_access w;
     sys_lstat := sys_lstat w;
     sys_readlink := sys_readlink w;
     authselect_read_conf := authselect_read_conf w;
     authselect_cat := authselect_cat w;
     GENERATED_FILES := GENERATED_FILES w;
     GENERATED_FILES_PATHS := GENERATED_FILES_PATHS w;
     SYMLINK_FILES := SYMLINK_FILES w;
     AUTHSELECT_UID := AUTHSELECT_UID w;
     AUTHSELECT_GID := AUTHSELECT_GID w;
     indeterminate := b |}.

(** What the verifier finds for one generated file and for one link: the
    return code and the validity, with the out-parameter starting at
    [false]. *)
Definition file_outcome (w : world) (g : authselect_generated)
  : errno_t * bool :=
  check_generated_file w (path g) (content g) false.

Definition link_outcome (w : world) (s : authselect_symlink)
  : errno_t * bool :=
  check_link w (name s) (dest s) false.

(** The order sort_profile_ids puts on two identifiers. *)
Definition profile_le (is_custom : string -> bool) (a b : string) : Prop :=
  sort_profile_ids is_custom (Some a) (Some b) <= 0.

(** The identifiers of [l] in the order qsort gives them. *)
Definition sorted_ids (is_custom : string -> bool) (l : list string)
  : list string :=
  foldr (qsort_insert
           (fun a b => sort_profile_ids is_custom (Some a) (Some b))) [] l.

(** What the three merge steps put into [ids], in this order: every default
    profile, the vendor profiles that are not among the default ones, and
    the identifier of every custom profile. *)
Definition accumulated (custom_id : string -> option string)
    (default vendor custom : list string) : list string :=
  default ++ filter (fun p => p ∉ default) vendor ++ omap custom_id custom.

(** No allocation of a merge fails. *)
Definition allocations_succeed (strdup_fails : string -> bool)
    (calloc_fails : nat -> bool) (custom_id : string -> option string)
    (default vendor custom : list string) : Prop :=
  calloc_fails (length default + length vendor + length custom + 1)%nat
  = false
  /\ Forall (fun p => strdup_fails p = false) default
  /\ Forall (fun p => strdup_fails p = false)
       (filter (fun p => p ∉ default) vendor)
  /\ Forall (fun p => is_Some (custom_id p)) custom.

(** ** Properties *)

(** *** Strings *)

Lemma uchar_inj (c1 c2 : ascii) : uchar c1 = uchar c2 -> c1 = c2.
Proof.
  unfold uchar. intros H. apply N2Z.inj in H.
  rewrite <- (ascii_N_embedding c1), <- (ascii_N_embedding c2).
  now rewrite H.
Qed.

Lemma strcmp_refl (s : string) : strcmp s s = 0.
Proof.
  induction s as [|c s IH]; simpl; [reflexivity|].
  rewrite Z.ltb_irrefl. exact IH.
Qed.

Lemma strcmp_eq (s1 s2 : string) : strcmp s1 s2 = 0 <-> s1 = s2.
Proof.
  split; [|intros ->; apply strcmp_refl].
  revert s2. induction s1 as [|c1 t1 IH]; intros [|c2 t2]; simpl;
    try discriminate; [reflexivity|].
  destruct (Z.ltb_spec (uchar c1) (uchar c2)); [discriminate|].
  destruct (Z.ltb_spec (uchar c2) (uchar c1)); [discriminate|].
  intros H1. f_equal; [apply uchar_inj; lia | now apply IH].
Qed.

Lemma strchr_Some (s t : string) (c : ascii) :
  strchr s c = Some t ->
  exists l t', s = String.append l (String c t') /\ t = String c t' /\
               (~ In c (list_ascii_of_string l)).
Proof.
  induction s as [|a s IH]; simpl; [discriminate|].
  destruct (Ascii.eqb_spec a c) as [->|Hne].
  - intros [= <-]. exists EmptyString, s. simpl. tauto.
  - intros H. destruct (IH H) as (l & t' & -> & -> & Hl).
    exists (String a l), t'. simpl. intuition congruence.
Qed.

Lemma strchr_app (l t' : string) (c : ascii) :
  ~ In c (list_ascii_of_string l) ->
  strchr (String.append l (String c t')) c = Some (String c t').
Proof.
  induction l as [|a l IH]; simpl; intros Hl.
  - now rewrite Ascii.eqb_refl.
  - destruct (Ascii.eqb_spec a c) as [->|Hne]; [tauto|]. apply IH. tauto.
Qed.

(** *** check_content *)

Lemma deref_eq (s : string) (c : ascii) :
  c <> NUL -> Ascii.eqb (deref s) c = true -> exists t, s = String c t.
Proof.
  intros Hc H. apply Ascii.eqb_eq in H. destruct s as [|a t]; simpl in H.
  - congruence.
  - subst. now exists t.
Qed.

Lemma check_content_layout (content expected : string) :
  check_content content expected = true <-> generated_layout content expected.
Proof.
  unfold check_content, generated_layout. split.
  - destruct (Ascii.eqb (deref content) HASH) eqn:H0; [|discriminate].
    apply deref_eq in H0 as [t0 ->]; [|discriminate]. simpl.
    destruct (strchr t0 LF) as [n1|] eqn:H1; [|discriminate].
    apply strchr_Some in H1 as (l1 & t1 & -> & -> & Hl1). simpl.
    destruct (Ascii.eqb (deref t1) HASH) eqn:H2; [|discriminate].
    apply deref_eq in H2 as [t2 ->]; [|discriminate]. simpl.
    destruct (strchr t2 LF) as [n2|] eqn:H3; [|discriminate].
    apply strchr_Some in H3 as (l2 & t3 & -> & -> & Hl2). simpl.
    destruct (Ascii.eqb (deref t3) LF) eqn:H4; [|discriminate].
    apply deref_eq in H4 as [t4 ->]; [|discriminate]. simpl.
    intros H5. apply Z.eqb_eq, strcmp_eq in H5. subst t4.
    now exists l1, l2.
  - intros (l1 & l2 & Hl1 & Hl2 & ->). simpl.
    rewrite (strchr_app l1 _ LF Hl1). simpl.
    rewrite (strchr_app l2 _ LF Hl2). simpl.
    apply Z.eqb_eq, strcmp_refl.
Qed.

Lemma read_textfile_EOK (w : world) (path : string) (c0 c : option string) :
  read_textfile w path c0 = (EOK, c) -> exists text, c = Some text.
Proof.
  unfold read_textfile, read_textfile_internal.
  destruct (fopen w path) as [e|file]; [intros [=]|].
  destruct (fseek_end file) as [e|_]; [intros [=]|].
  destruct (ftell file) as [e|filelen]; [intros [=]|].
  destruct (malloc_ok file); simpl; [|intros [=]].
  destruct (Nat.eqb _ _); simpl; intros [=]. subst. eauto.
Qed.

(** *** Return codes *)

Local Arguments readlink : simpl never.

Ltac split_lets :=
  repeat match goal with
    | |- context [let '(_, _) := ?x in _] => destruct x eqn:?
    end.

Lemma strncmp_strcmp (a b : string) :
  strncmp a b (String.length a)
  = strcmp a (substring 0 (String.length a) b).
Proof.
  revert b. induction a as [|c a IH]; intros [|d b]; simpl; try reflexivity.
  now rewrite IH.
Qed.

Lemma perm_bits (m : Z) :
  Z.land m ACCESSPERMS <> ACCESSPERMS -> Z.land m ALLPERMS <> ACCESSPERMS.
Proof.
  intros H E. apply H.
  replace ACCESSPERMS with (Z.land ALLPERMS ACCESSPERMS) at 1 by reflexivity.
  rewrite Z.land_assoc, E. reflexivity.
Qed.

Lemma check_mode_perm (sb : stat) (uid gid mode : Z) :
  check_mode (Some sb) uid gid mode = true ->
  Z.land mode ALLPERMS = Z.land (st_mode sb) ALLPERMS.
Proof.
  unfold check_mode.
  destruct (check_type (Some sb) mode); simpl; [|discriminate].
  destruct (Z.eqb_spec (Z.land mode ALLPERMS) (Z.land (st_mode sb) ALLPERMS));
    simpl; [tauto|discriminate].
Qed.

(** C1. The content of a generated file passes check_content exactly when it
    is a line that starts with '#', a second line that starts with '#', an
    empty line, and then the expected body, byte for byte; the text of the
    two comment lines is free. A file whose text has any other form is marked
    invalid by check_generated_file, and a NULL expected body counts as the
    empty body. *)
Theorem generated_content_valid_iff_layout :
  (forall content expected : string,
     check_content content expected = true
     <-> generated_layout content expected)
  /\ (forall (w : world) (path : string) (expected : option string)
        (v : bool) (text : string),
        read_textfile w path None = (EOK, Some text) ->
        ~ generated_layout text (default EmptyString expected) ->
        check_generated_file w path expected v = (EOK, false))
  /\ (forall (w : world) (path : string) (v : bool),
        check_generated_file w path None v
        = check_generated_file w path (Some EmptyString) v).
Proof.
  split; [exact check_content_layout|]. split.
  - intros w path expected v text Hread Hlayout.
    unfold check_generated_file. rewrite Hread. simpl.
    destruct (check_content text _) eqn:Hc.
    + apply check_content_layout in Hc. destruct expected; contradiction.
    + reflexivity.
  - reflexivity.
Qed.

Lemma generated_content_valid_iff_layout_witness :
  check_generated_file host_edited "/etc/authselect/nsswitch.conf"
    (Some nsswitch_body) true = (EOK, false).
Proof.
  apply (proj1 (proj2 generated_content_valid_iff_layout))
    with (text := unlines ["# Generated by authselect";
                           "# Do not modify this file manually.";
                           "passwd: files sss"]).
  - vm_compute. reflexivity.
  - intros H.
    apply (proj1 generated_content_valid_iff_layout) in H.
    vm_compute in H. discriminate.
Defined.

(** C7. For a link that passes the mode check, check_link compares the
    target as read, of length N, with the first N bytes of the expected
    destination only; so there is a link whose target is a proper prefix of
    the expected destination and which is judged valid. *)
Theorem check_link_compares_prefix :
  (forall (w : world) (linkpath destpath : string) (v : bool)
      (statbuf : stat) (linkbuf : string),
      sys_lstat w linkpath = Done statbuf ->
      check_mode (Some statbuf) ID_NONE ID_NONE (Z.lor S_IFLNK ACCESSPERMS)
      = true ->
      readlink w linkpath (PATH_MAX + 1) = Done linkbuf ->
      check_link w linkpath destpath v
      = (EOK, strcmp linkbuf
                (substring 0 (String.length linkbuf) destpath) =? 0))
  /\ (exists (w : world) (linkpath destpath target : string),
        sys_readlink w linkpath = Done target /\
        target <> destpath /\
        String.prefix target destpath = true /\
        check_link w linkpath destpath false = (EOK, true)).
Proof.
  split.
  - intros w linkpath destpath v statbuf linkbuf Hstat Hmode Hlink.
    unfold check_link, check_internal. rewrite Hstat, Hmode.
    cbn -[Nat.add readlink]. rewrite Hlink, strncmp_strcmp.
    now destruct (strcmp linkbuf _ =? 0).
  - exists host_configured_dir_link, "/etc/nsswitch.conf",
      "/etc/authselect/nsswitch.conf", "/etc/authselect".
    repeat split; try (vm_compute; reflexivity). discriminate.
Qed.

Lemma check_link_compares_prefix_witness :
  check_link host_configured_dir_link "/etc/nsswitch.conf"
    "/etc/authselect/nsswitch.conf" false
  = (EOK, strcmp "/etc/authselect"
            (substring 0 (String.length "/etc/authselect")
               "/etc/authselect/nsswitch.conf") =? 0).
Proof.
  apply (proj1 check_link_compares_prefix)
    with (statbuf := {| st_mode := Z.lor S_IFLNK ACCESSPERMS; st_uid := 0;
                        st_gid := 0 |});
    vm_compute; reflexivity.
Defined.

(** C10. check_link asks for more than existence, type and target: the mode
    bits of the link must be 0777. A link whose mode bits differ, under the
    mask ALLPERMS that check_mode applies or under ACCESSPERMS, is marked
    invalid whatever its target is. *)
Theorem check_link_requires_mode_0777 (w : world) (linkpath destpath : string)
    (v : bool) (statbuf : stat) :
  sys_lstat w linkpath = Done statbuf ->
  Z.land (st_mode statbuf) ALLPERMS <> ACCESSPERMS \/
  Z.land (st_mode statbuf) ACCESSPERMS <> ACCESSPERMS ->
  check_link w linkpath destpath v = (EOK, false).
Proof.
  intros Hstat Hperm.
  assert (Hne : Z.land (st_mode statbuf) ALLPERMS <> ACCESSPERMS)
    by (destruct Hperm; auto using perm_bits).
  unfold check_link, check_internal. rewrite Hstat.
  destruct (check_mode (Some statbuf) _ _ _) eqn:Hmode; [|reflexivity].
  apply check_mode_perm in Hmode. exfalso. apply Hne.
  rewrite <- Hmode. reflexivity.
Qed.

Lemma check_link_requires_mode_0777_witness :
  sys_readlink host_configured_0755_link "/etc/nsswitch.conf"
  = Done "/etc/authselect/nsswitch.conf"
  /\ check_link host_configured_0755_link "/etc/nsswitch.conf"
       "/etc/authselect/nsswitch.conf" true = (EOK, false).
Proof.
  split; [reflexivity|].
  apply check_link_requires_mode_0777
    with (statbuf := {| st_mode := Z.lor S_IFLNK perm_0755; st_uid := 0;
                        st_gid := 0 |}).
  - reflexivity.
  - left. vm_compute. discriminate.
Defined.

(** *** The scans *)

Lemma check_internal_cell (w : world) (p : string) (uid gid mode : Z)
    (v : bool) :
  check_internal w p uid gid mode v
  = let o := check_internal w p uid gid mode false in
    if fst o =? EOK then o else (fst o, v).
Proof.
  unfold check_internal. destruct (sys_lstat w p) as [e|sb]; cbv zeta.
  - destruct (Z.pos e =? ENOENT); reflexivity.
  - reflexivity.
Qed.

Lemma check_generated_file_cell (w : world) (p : string)
    (c : option string) (v : bool) :
  check_generated_file w p c v
  = let o := check_generated_file w p c false in
    if fst o =? EOK then o else (fst o, v).
Proof.
  unfold check_generated_file.
  destruct (read_textfile w p None) as [ret text].
  destruct (ret =? ENOENT); [reflexivity|].
  destruct (ret =? EACCES); [reflexivity|].
  destruct (Z.eqb_spec ret EOK) as [->|Hne]; simpl.
  - destruct (match text with Some _ => _ | None => _ end); simpl;
      [|reflexivity].
    destruct (check_file _ _ _ _ _ _) as [ret b].
    destruct (Z.eqb_spec ret EOK) as [->|Hne]; simpl; [reflexivity|].
    now destruct (Z.eqb_spec ret EOK).
  - now destruct (Z.eqb_spec ret EOK).
Qed.

Lemma check_link_cell (w : world) (l d : string) (v : bool) :
  fst (check_link w l d v) = fst (check_link w l d false) /\
  (fst (check_link w l d false) = EOK ->
   check_link w l d v = check_link w l d false).
Proof.
  unfold check_link. rewrite (check_internal_cell w l _ _ _ v).
  destruct (check_internal w l _ _ _ false) as [ret b]. simpl.
  destruct (Z.eqb_spec ret EOK) as [->|Hne]; simpl; [tauto|].
  destruct (Z.eqb_spec ret EOK); [contradiction|]. simpl. tauto.
Qed.

Lemma check_generated_files_loop_ok (w : world)
    (gens : list authselect_generated) (r v : bool) :
  Forall (fun g => fst (file_outcome w g) = EOK) gens ->
  check_generated_files_loop w gens r v
  = (EOK, r && forallb (fun g => snd (file_outcome w g)) gens).
Proof.
  intros H. revert r v.
  induction H as [|g gens Hg _ IH]; intros r v; simpl.
  - now rewrite andb_true_r.
  - rewrite check_generated_file_cell. fold (file_outcome w g).
    destruct (file_outcome w g) as [ret b]. simpl in *. subst ret. simpl.
    rewrite IH. now rewrite andb_assoc.
Qed.

Lemma check_generated_files_loop_abort (w : world)
    (pre post : list authselect_generated) (g : authselect_generated)
    (r v : bool) :
  Forall (fun g => fst (file_outcome w g) = EOK) pre ->
  fst (file_outcome w g) <> EOK ->
  fst (check_generated_files_loop w (pre ++ g :: post) r v)
  = fst (file_outcome w g).
Proof.
  intros H Hg. revert r v.
  induction H as [|g' pre Hg' _ IH]; intros r v; simpl.
  - rewrite check_generated_file_cell. fold (file_outcome w g).
    destruct (file_outcome w g) as [ret b]. simpl in *.
    destruct (Z.eqb_spec ret EOK); [contradiction|]. simpl.
    now destruct (Z.eqb_spec ret EOK).
  - rewrite check_generated_file_cell. fold (file_outcome w g').
    destruct (file_outcome w g') as [ret b]. simpl in *. subst ret. simpl.
    apply IH.
Qed.

Lemma check_symlinks_loop_ok (w : world) (links : list authselect_symlink)
    (r v : bool) :
  Forall (fun s => fst (link_outcome w s) = EOK) links ->
  check_symlinks_loop w links r v
  = (EOK, r && forallb (fun s => snd (link_outcome w s)) links).
Proof.
  intros H. revert r v.
  induction H as [|s links Hs _ IH]; intros r v; simpl.
  - now rewrite andb_true_r.
  - destruct (check_link_cell w (name s) (dest s) v) as [_ E].
    rewrite (E Hs). fold (link_outcome w s).
    destruct (link_outcome w s) as [ret b]. simpl in *. subst ret. simpl.
    rewrite IH. destruct b, r; reflexivity.
Qed.

Lemma check_symlinks_loop_abort (w : world)
    (pre post : list authselect_symlink) (s : authselect_symlink)
    (r v : bool) :
  Forall (fun s => fst (link_outcome w s) = EOK) pre ->
  fst (link_outcome w s) <> EOK ->
  fst (check_symlinks_loop w (pre ++ s :: post) r v)
  = fst (link_outcome w s).
Proof.
  intros H Hs. revert r v.
  induction H as [|s' pre Hs' _ IH]; intros r v; simpl.
  - destruct (check_link_cell w (name s) (dest s) v) as [E _].
    unfold link_outcome in *.
    destruct (check_link w (name s) (dest s) v) as [ret b]. simpl in E.
    rewrite <- E in *.
    destruct (Z.eqb_spec ret EOK); [contradiction|]. reflexivity.
  - destruct (check_link_cell w (name s') (dest s') v) as [_ E].
    rewrite (E Hs'). fold (link_outcome w s').
    destruct (link_outcome w s') as [ret b]. simpl in *. subst ret. simpl.
    apply IH.
Qed.

Lemma check_generated_files_error (w : world) (files : authselect_files w)
    (v : bool) :
  fst (check_generated_files w files v) <> EOK ->
  snd (check_generated_files w files v) = v.
Proof.
  unfold check_generated_files. split_lets.
  destruct (Z.eqb_spec e EOK); simpl; congruence.
Qed.

Lemma check_symlinks_error (w : world) (v : bool) :
  fst (check_symlinks w v) <> EOK -> snd (check_symlinks w v) = v.
Proof.
  unfold check_symlinks. split_lets.
  destruct (Z.eqb_spec e EOK); simpl; congruence.
Qed.

Lemma check_missing_conf_error (w : world) (v : bool) :
  fst (check_missing_conf w v) <> EOK -> snd (check_missing_conf w v) = v.
Proof.
  unfold check_missing_conf. split_lets.
  destruct (Z.eqb_spec e EOK); simpl; [|congruence]. split_lets.
  destruct (Z.eqb_spec e0 EOK); simpl; congruence.
Qed.

Lemma check_existing_conf_error (w : world) (pid : string)
    (feats : list string) (v : bool) :
  fst (check_existing_conf w pid feats v) <> EOK ->
  snd (check_existing_conf w pid feats v) = v.
Proof.
  unfold check_existing_conf. split_lets.
  destruct (Z.eqb_spec e EOK); simpl; [|congruence]. split_lets.
  destruct (Z.eqb_spec e0 EOK); simpl; [|congruence]. split_lets.
  destruct (Z.eqb_spec e1 EOK); simpl; congruence.
Qed.

(** *** The verification run *)

(** C2, as the code has it. Not-found and permission-denied from reading the
    text of a generated file, and not-found from lstat, make the one
    artifact invalid: the scan goes on and the run returns EOK with the
    conjunction of the validities, so with [false]. Every other failure,
    among them permission-denied from lstat and any failure of readlink,
    ends the run at that artifact: its code is returned and the caller's
    flag is not written. *)
Theorem read_failures_classified (w : world) :
  (forall (path : string) (expected : option string) (v : bool)
      (ret : errno_t) (text : option string),
      read_textfile w path None = (ret, text) ->
      (ret = ENOENT \/ ret = EACCES ->
       check_generated_file w path expected v = (EOK, false)) /\
      (ret <> EOK -> ret <> ENOENT -> ret <> EACCES ->
       check_generated_file w path expected v = (ret, v)))
  /\ (forall (path : string) (uid gid mode : Z) (v : bool) (e : positive),
        sys_lstat w path = Fail e ->
        (Z.pos e = ENOENT ->
         check_internal w path uid gid mode v = (EOK, false)) /\
        (Z.pos e <> ENOENT ->
         check_internal w path uid gid mode v = (Z.pos e, v)))
  /\ (forall (linkpath destpath : string) (v : bool) (e : positive),
        sys_lstat w linkpath = Fail e ->
        (Z.pos e = ENOENT ->
         check_link w linkpath destpath v = (EOK, false)) /\
        (Z.pos e <> ENOENT ->
         check_link w linkpath destpath v = (Z.pos e, v)))
  /\ (forall (linkpath destpath : string) (v : bool) (sb : stat)
        (e : positive),
        sys_lstat w linkpath = Done sb ->
        check_mode (Some sb) ID_NONE ID_NONE (Z.lor S_IFLNK ACCESSPERMS)
        = true ->
        readlink w linkpath (PATH_MAX + 1) = Fail e ->
        fst (check_link w linkpath destpath v) = Z.pos e)
  /\ (forall (pid : string) (feats : list string)
        (files : authselect_files w) (v : bool),
        authselect_read_conf w = (EOK, (pid, feats)) ->
        authselect_cat w pid feats = (EOK, files) ->
        (Forall (fun g => fst (file_outcome w g) = EOK)
           (GENERATED_FILES w files) ->
         Forall (fun s => fst (link_outcome w s) = EOK) (SYMLINK_FILES w) ->
         authselect_check_conf w v
         = (EOK,
            forallb (fun g => snd (file_outcome w g))
              (GENERATED_FILES w files)
            && forallb (fun s => snd (link_outcome w s)) (SYMLINK_FILES w)))
        /\ (forall (pre post : list authselect_generated)
              (g : authselect_generated),
              GENERATED_FILES w files = pre ++ g :: post ->
              Forall (fun g => fst (file_outcome w g) = EOK) pre ->
              fst (file_outcome w g) <> EOK ->
              authselect_check_conf w v = (fst (file_outcome w g), v))
        /\ (forall (pre post : list authselect_symlink)
              (s : authselect_symlink),
              Forall (fun g => fst (file_outcome w g) = EOK)
                (GENERATED_FILES w files) ->
              SYMLINK_FILES w = pre ++ s :: post ->
              Forall (fun s => fst (link_outcome w s) = EOK) pre ->
              fst (link_outcome w s) <> EOK ->
              authselect_check_conf w v = (fst (link_outcome w s), v))).
Proof.
  repeat apply conj.
  - intros path expected v ret text Hread. unfold check_generated_file.
    rewrite Hread. split.
    + intros [-> | ->]; reflexivity.
    + intros H0 H1 H2.
      destruct (Z.eqb_spec ret ENOENT); [contradiction|].
      destruct (Z.eqb_spec ret EACCES); [contradiction|].
      destruct (Z.eqb_spec ret EOK); [contradiction|]. reflexivity.
  - intros path uid gid mode v e Hstat. unfold check_internal.
    rewrite Hstat. cbv zeta. split; intros H.
    + now destruct (Z.eqb_spec (Z.pos e) ENOENT).
    + now destruct (Z.eqb_spec (Z.pos e) ENOENT).
  - intros linkpath destpath v e Hstat. unfold check_link, check_internal.
    rewrite Hstat. cbv zeta. split; intros H.
    + now destruct (Z.eqb_spec (Z.pos e) ENOENT).
    + now destruct (Z.eqb_spec (Z.pos e) ENOENT).
  - intros linkpath destpath v sb e Hstat Hmode Hlink.
    unfold check_link, check_internal. rewrite Hstat, Hmode.
    cbn -[Nat.add readlink]. now rewrite Hlink.
  - intros pid feats files v Hconf Hcat. unfold authselect_check_conf.
    rewrite Hconf. cbn [Z.eqb EOK ENOENT negb]. unfold check_existing_conf.
    rewrite Hcat. cbn [Z.eqb EOK negb].
    unfold check_generated_files, check_symlinks. repeat apply conj.
    + intros Hfiles Hlinks.
      rewrite (check_generated_files_loop_ok w _ _ _ Hfiles).
      cbn [Z.eqb EOK negb andb].
      rewrite (check_symlinks_loop_ok w _ _ _ Hlinks). reflexivity.
    + intros pre post g Hgens Hpre Hg.
      pose proof (check_generated_files_loop_abort w pre post g true false
                    Hpre Hg) as E.
      rewrite <- Hgens in E.
      destruct (check_generated_files_loop w _ true false) as [ret r].
      simpl in E. subst ret.
      apply Z.eqb_neq in Hg. rewrite Hg. cbn [negb]. rewrite Hg.
      reflexivity.
    + intros pre post s Hfiles Hlinks Hpre Hs.
      rewrite (check_generated_files_loop_ok w _ _ _ Hfiles).
      cbn [Z.eqb EOK negb andb].
      pose proof (check_symlinks_loop_abort w pre post s true
                    (indeterminate w) Hpre Hs) as E.
      rewrite <- Hlinks in E.
      destruct (check_symlinks_loop w _ true _) as [ret r].
      simpl in E. subst ret.
      apply Z.eqb_neq in Hs. rewrite Hs. cbn [negb]. rewrite Hs.
      reflexivity.
Qed.

Lemma read_failures_classified_witness :
  authselect_check_conf host_file_unreadable true = (EOK, false)
  /\ authselect_check_conf host_link_unreachable true = (EACCES, true).
Proof.
  split.
  - rewrite (proj1 (proj2 (proj2 (proj2 (proj2
               (read_failures_classified host_file_unreadable))))
               "sssd" [] tt true eq_refl eq_refl)).
    + reflexivity.
    + repeat constructor.
    + repeat constructor.
  - apply (proj2 (proj2 (proj2 (proj2 (proj2 (proj2
             (read_failures_classified host_link_unreachable))))
             "sssd" [] tt true eq_refl eq_refl)) [] [] nsswitch_symlink).
    + repeat constructor.
    + reflexivity.
    + constructor.
    + vm_compute. discriminate.
Defined.

(** C2, as the claim has it, fails: on a host where the directory of the
    link may not be searched, lstat fails with EACCES, and the run returns
    EACCES to the caller. *)
Lemma lstat_EACCES_fails_the_run :
  sys_lstat host_link_unreachable "/etc/nsswitch.conf" = Fail errno_EACCES
  /\ check_link host_link_unreachable "/etc/nsswitch.conf"
       "/etc/authselect/nsswitch.conf" false = (EACCES, false)
  /\ authselect_check_conf host_link_unreachable true = (EACCES, true)
  /\ fst (authselect_check_conf host_link_unreachable true) <> EOK.
Proof. repeat split; vm_compute; congruence. Qed.

(** C8, as the code has it. Without a record of the active profile the
    entry point runs check_missing_conf; when that check completes, its
    validity is stored in the flag and ENOENT is returned, and when it fails
    its error is returned and the flag is not written. With a record whose
    profile authselect_cat cannot load, the error of authselect_cat is
    returned and the flag is not written. *)
Theorem check_conf_without_record_or_profile (w : world) (v : bool) :
  (fst (authselect_read_conf w) = ENOENT ->
   (forall valid : bool,
      check_missing_conf w v = (EOK, valid) ->
      authselect_check_conf w v = (ENOENT, valid)) /\
   (forall (e : errno_t) (out : bool),
      check_missing_conf w v = (e, out) -> e <> EOK ->
      authselect_check_conf w v = (e, v)))
  /\ (forall (pid : string) (feats : list string) (e : errno_t)
        (files : authselect_files w),
        authselect_read_conf w = (EOK, (pid, feats)) ->
        authselect_cat w pid feats = (e, files) -> e <> EOK ->
        authselect_check_conf w v = (e, v)).
Proof.
  split.
  - intros Hconf. unfold authselect_check_conf.
    destruct (authselect_read_conf w) as [ret [pid feats]]. simpl in Hconf.
    subst ret. cbn [Z.eqb ENOENT Pos.eqb]. split.
    + intros valid ->. reflexivity.
    + intros e out Hmiss He.
      pose proof (check_missing_conf_error w v) as Hkeep.
      rewrite Hmiss in *. simpl in Hkeep. rewrite (Hkeep He).
      now destruct (Z.eqb_spec e EOK).
  - intros pid feats e files Hconf Hcat He. unfold authselect_check_conf.
    rewrite Hconf. cbn [Z.eqb EOK ENOENT negb]. unfold check_existing_conf.
    rewrite Hcat. now destruct (Z.eqb_spec e EOK).
Qed.

Lemma check_conf_without_record_or_profile_witness :
  authselect_check_conf host_unconfigured_dir_link true = (ENOENT, false)
  /\ authselect_check_conf host_unconfigured_unreachable true
     = (EACCES, true)
  /\ authselect_check_conf host_cat_fails true = (EIO, true).
Proof.
  split; [|split].
  - apply (proj1 (proj1 (check_conf_without_record_or_profile
                           host_unconfigured_dir_link true) eq_refl)).
    vm_compute. reflexivity.
  - apply (proj2 (proj1 (check_conf_without_record_or_profile
                           host_unconfigured_unreachable true) eq_refl)
             EACCES true).
    + vm_compute. reflexivity.
    + discriminate.
  - apply (proj2 (check_conf_without_record_or_profile host_cat_fails true)
             "sssd" [] EIO tt).
    + reflexivity.
    + reflexivity.
    + discriminate.
Defined.

(** C8, as the claim has it, fails: no profile is recorded, access(2) to the
    path of a generated file fails with EACCES, and the entry point returns
    EACCES instead of ENOENT and stores no validity: the flag keeps
    whichever value the caller had put there. *)
Lemma no_record_yet_EACCES_returned :
  fst (authselect_read_conf host_unconfigured_unreachable) = ENOENT
  /\ fst (authselect_check_conf host_unconfigured_unreachable true) <> ENOENT
  /\ authselect_check_conf host_unconfigured_unreachable true
     = (EACCES, true)
  /\ authselect_check_conf host_unconfigured_unreachable false
     = (EACCES, false).
Proof. repeat split; vm_compute; congruence. Qed.

(** C9. authselect_check_conf and authselect_check_symlinks_presence write
    the caller's flag only on a return of EOK or ENOENT: on any other return
    code the flag holds the value it had on entry. *)
Theorem flag_kept_on_fatal_return (w : world) (v : bool) :
  (forall (ret : errno_t) (out : bool),
     authselect_check_conf w v = (ret, out) ->
     ret <> EOK -> ret <> ENOENT -> out = v)
  /\ (forall (ret : errno_t) (out : bool),
        authselect_check_symlinks_presence w v = (ret, out) ->
        ret <> EOK -> ret <> ENOENT -> out = v).
Proof.
  split.
  - intros ret out. unfold authselect_check_conf.
    destruct (authselect_read_conf w) as [r [pid feats]].
    destruct (Z.eqb_spec r ENOENT) as [->|Hr].
    + pose proof (check_missing_conf_error w v) as Hkeep.
      destruct (check_missing_conf w v) as [e o]. simpl in Hkeep.
      destruct (Z.eqb_spec e EOK) as [->|He]; simpl.
      * intros [= <- <-]. congruence.
      * intros [= <- <-] _ _. auto.
    + destruct (Z.eqb_spec r EOK) as [->|Hr0]; simpl.
      * pose proof (check_existing_conf_error w pid feats v) as Hkeep.
        destruct (check_existing_conf w pid feats v) as [e o].
        simpl in Hkeep. intros [= <- <-] He _. auto.
      * intros [= <- <-]. reflexivity.
  - intros ret out. unfold authselect_check_symlinks_presence.
    destruct (check_symlinks_presence_loop w _ false) as [e b].
    destruct (Z.eqb_spec e EOK) as [->|He]; simpl.
    + intros [= <- <-]. congruence.
    + intros [= <- <-]. reflexivity.
Qed.

Lemma flag_kept_on_fatal_return_witness :
  snd (authselect_check_conf host_link_unreachable true) = true
  /\ snd (authselect_check_conf host_link_unreachable false) = false
  /\ snd (authselect_check_symlinks_presence host_link_unreachable true)
     = true.
Proof.
  split; [|split].
  - apply (proj1 (flag_kept_on_fatal_return host_link_unreachable true)
             EACCES); [vm_compute; reflexivity | discriminate..].
  - apply (proj1 (flag_kept_on_fatal_return host_link_unreachable false)
             EACCES); [vm_compute; reflexivity | discriminate..].
  - apply (proj2 (flag_kept_on_fatal_return host_link_unreachable true)
             EACCES); [vm_compute; reflexivity | discriminate..].
Defined.

(** C6 on a host it does not hold for. No profile is recorded, no generated
    file is left, and /etc/nsswitch.conf is a link to /etc/authselect: its
    target differs from the expected destination
    /etc/authselect/nsswitch.conf and is a proper prefix of it.
    check_notalink reports the link as one of authselect, and the leftover
    check returns invalid. *)
Theorem check_notalink_flags_prefix_target :
  sys_readlink host_unconfigured_dir_link "/etc/nsswitch.conf"
  = Done "/etc/authselect"
  /\ "/etc/authselect" <> dest nsswitch_symlink
  /\ check_notalink host_unconfigured_dir_link (name nsswitch_symlink)
       (dest nsswitch_symlink) true = (EOK, false)
  /\ check_missing_conf host_unconfigured_dir_link true = (EOK, false)
  /\ authselect_check_conf host_unconfigured_dir_link true = (ENOENT, false).
Proof. repeat split; vm_compute; congruence. Qed.

(** *** The order of the catalog *)

Lemma strcmp_antisym (a b : string) : strcmp a b = - strcmp b a.
Proof.
  revert b. induction a as [|c a IH]; intros [|d b]; simpl; try reflexivity.
  destruct (Z.ltb_spec (uchar c) (uchar d)), (Z.ltb_spec (uchar d) (uchar c));
    try reflexivity; try lia. apply IH.
Qed.

Lemma strcmp_le_trans (a b c : string) :
  strcmp a b <= 0 -> strcmp b c <= 0 -> strcmp a c <= 0.
Proof.
  revert b c. induction a as [|x a IH]; intros [|y b] [|z c]; simpl;
    try lia.
  destruct (Z.ltb_spec (uchar x) (uchar y)), (Z.ltb_spec (uchar y) (uchar x)),
    (Z.ltb_spec (uchar y) (uchar z)), (Z.ltb_spec (uchar z) (uchar y)),
    (Z.ltb_spec (uchar x) (uchar z)), (Z.ltb_spec (uchar z) (uchar x));
    try lia. apply IH.
Qed.

Local Arguments sort_profile_ids : simpl never.

Section Order.

Variable is_custom : string -> bool.

#[local] Instance profile_le_total : Total (profile_le is_custom).
Proof.
  intros a b. unfold profile_le, sort_profile_ids.
  rewrite (strcmp_antisym b a).
  destruct (is_custom a), (is_custom b); simpl; lia.
Qed.

#[local] Instance profile_le_trans : Transitive (profile_le is_custom).
Proof.
  intros a b c. unfold profile_le, sort_profile_ids.
  pose proof (strcmp_le_trans a b c).
  destruct (is_custom a), (is_custom b), (is_custom c); simpl; lia.
Qed.

#[local] Instance profile_le_antisym : AntiSymm (=) (profile_le is_custom).
Proof.
  intros a b. unfold profile_le, sort_profile_ids.
  rewrite (strcmp_antisym b a).
  destruct (is_custom a), (is_custom b); simpl; try lia.
  - intros. apply strcmp_eq. lia.
  - intros. apply strcmp_eq. lia.
Qed.

Lemma qsort_insert_Permutation {A} (compar : A -> A -> Z) (x : A)
    (l : list A) :
  qsort_insert compar x l ≡ₚ x :: l.
Proof.
  induction l as [|y l IH]; simpl; [reflexivity|].
  destruct (compar x y <=? 0); [reflexivity|].
  rewrite IH. apply Permutation_swap.
Qed.

Lemma sorted_ids_Permutation (l : list string) :
  sorted_ids is_custom l ≡ₚ l.
Proof.
  induction l as [|x l IH]; simpl; [reflexivity|].
  unfold sorted_ids in *. simpl. rewrite qsort_insert_Permutation.
  now rewrite IH.
Qed.

Lemma qsort_insert_Sorted (x : string) (l : list string) :
  Sorted (profile_le is_custom) l ->
  Sorted (profile_le is_custom)
    (qsort_insert
       (fun a b => sort_profile_ids is_custom (Some a) (Some b)) x l).
Proof.
  induction l as [|y l IH]; simpl; intros Hl.
  - repeat constructor.
  - destruct (Z.leb_spec
                (sort_profile_ids is_custom (Some x) (Some y)) 0) as [H|H].
    + constructor; [exact Hl|]. constructor. exact H.
    + assert (Hyx : profile_le is_custom y x).
      { destruct (profile_le_total x y) as [H'|H']; [|exact H'].
        unfold profile_le in H'. lia. }
      inversion Hl as [|? ? Hl' Hhd]; subst.
      constructor; [now apply IH|].
      destruct l as [|z l]; simpl.
      * now constructor.
      * destruct (_ <=? 0); constructor; [exact Hyx|].
        now inversion Hhd.
Qed.

Lemma sorted_ids_Sorted (l : list string) :
  Sorted (profile_le is_custom) (sorted_ids is_custom l).
Proof.
  induction l as [|x l IH]; [constructor|].
  unfold sorted_ids in *. simpl. now apply qsort_insert_Sorted.
Qed.

(** Any other arrangement that is sorted is the same list. *)
Lemma sorted_ids_unique (l l' : list string) :
  l' ≡ₚ l -> Sorted (profile_le is_custom) l' ->
  l' = sorted_ids is_custom l.
Proof.
  intros Hp Hs.
  apply (Sorted_unique (profile_le is_custom)); [exact Hs | |].
  - apply sorted_ids_Sorted.
  - now rewrite sorted_ids_Permutation.
Qed.

Lemma sorted_ids_perm_eq (l l' : list string) :
  l ≡ₚ l' -> sorted_ids is_custom l = sorted_ids is_custom l'.
Proof.
  intros Hp. apply sorted_ids_unique; [|apply sorted_ids_Sorted].
  now rewrite sorted_ids_Permutation.
Qed.

(** Sorting the identifiers together with the NULL that ends them leaves
    the NULL at the end. *)
Lemma qsort_insert_terminated (x : string) (l : list string) :
  qsort_insert (sort_profile_ids is_custom) (Some x)
    ((Some <$> l) ++ [None])
  = (Some <$>
       qsort_insert
         (fun a b => sort_profile_ids is_custom (Some a) (Some b)) x l)
    ++ [None].
Proof.
  induction l as [|y l IH]; simpl; [reflexivity|].
  destruct (_ <=? 0); [reflexivity|]. simpl. f_equal. exact IH.
Qed.

Lemma qsort_terminated (l : list string) :
  foldr (qsort_insert (sort_profile_ids is_custom)) []
    ((Some <$> l) ++ [None])
  = (Some <$> sorted_ids is_custom l) ++ [None].
Proof.
  induction l as [|x l IH]; [reflexivity|].
  rewrite fmap_cons. cbn [app foldr]. rewrite IH.
  apply qsort_insert_terminated.
Qed.

Lemma string_array_terminated (l : list string) (rest : list (option string)) :
  string_array ((Some <$> l) ++ None :: rest) = l.
Proof.
  induction l as [|x l IH]; [reflexivity|].
  rewrite fmap_cons. cbn [app string_array]. now rewrite IH.
Qed.

End Order.

(** *** The merge steps *)

Section MergerFacts.

Variable strdup_fails : string -> bool.
Variable calloc_fails : nat -> bool.
Variable custom_id : string -> option string.
Variable is_custom : string -> bool.

(** The array while it is filled: the identifiers stored so far, then
    NULLs. Storing at [*index] takes the first NULL. *)
Lemma array_store (acc : list string) (k : nat) (x : option string) :
  <[length acc := x]> ((Some <$> acc) ++ replicate (S k) None)
  = (Some <$> acc) ++ x :: replicate k None.
Proof.
  rewrite insert_app_r_alt by (rewrite length_fmap; lia).
  rewrite length_fmap, Nat.sub_diag. reflexivity.
Qed.

Lemma array_snoc (acc : list string) (x : string)
    (rest : list (option string)) :
  (Some <$> acc) ++ Some x :: rest = (Some <$> (acc ++ [x])) ++ rest.
Proof. rewrite fmap_app, <- app_assoc. reflexivity. Qed.

Lemma merge_default_loop_ok (ps acc : list string) (k : nat) :
  (length ps <= k)%nat ->
  Forall (fun p => strdup_fails p = false) ps ->
  merge_default_loop strdup_fails ps
    ((Some <$> acc) ++ replicate k None) (length acc)
  = (EOK, (Some <$> (acc ++ ps)) ++ replicate (k - length ps) None,
     length (acc ++ ps)).
Proof.
  revert acc k. induction ps as [|p ps IH]; intros acc k Hk Hok.
  - cbn [merge_default_loop length]. now rewrite app_nil_r, Nat.sub_0_r.
  - apply Forall_cons in Hok as [Hp Hok].
    destruct k as [|k]; [simpl in Hk; lia|].
    cbn [merge_default_loop]. unfold strdup. rewrite Hp.
    rewrite array_store, array_snoc.
    replace (S (length acc)) with (length (acc ++ [p]))
      by (rewrite length_app; simpl; lia).
    rewrite IH by (simpl in Hk; lia || assumption).
    rewrite <- app_assoc. reflexivity.
Qed.

Lemma merge_default_loop_fail (ps : list string)
    (ids : list (option string)) (index : nat) :
  ~ Forall (fun p => strdup_fails p = false) ps ->
  fst (fst (merge_default_loop strdup_fails ps ids index)) <> EOK.
Proof.
  revert ids index. induction ps as [|p ps IH]; intros ids index Hno.
  - destruct Hno. constructor.
  - cbn [merge_default_loop]. unfold strdup.
    destruct (strdup_fails p) eqn:Hp; [discriminate|].
    apply IH. intros Hps. apply Hno. now constructor.
Qed.

Lemma merge_vendor_find_spec (p : string) (l : list string) (j : nat) :
  merge_vendor_find p (Some <$> l) j = (j + length l)%nat <-> p ∉ l.
Proof.
  assert (Hge : forall l j, (j <= merge_vendor_find p (Some <$> l) j)%nat).
  { clear. intros l. induction l as [|y l IH]; intros j; simpl; [lia|].
    destruct (strcmp p y =? 0); [lia|].
    apply Nat.le_trans with (S j); [lia | apply IH]. }
  revert j. induction l as [|y l IH]; intros j.
  - simpl. split; [intros _; apply not_elem_of_nil | lia].
  - rewrite fmap_cons. cbn [merge_vendor_find length].
    rewrite not_elem_of_cons.
    destruct (Z.eqb_spec (strcmp p y) 0) as [E|E].
    + apply strcmp_eq in E. split; [lia | tauto].
    + rewrite <- (IH (S j)). rewrite strcmp_eq in E.
      split; [intros H; split; [exact E | lia] | intros [_ H]; lia].
Qed.

Lemma merge_vendor_scan (p : string) (d : list string)
    (ids : list (option string)) :
  take (length d) ids = Some <$> d ->
  Nat.eqb (merge_vendor_find p (take (length d) ids) 0) (length d)
  = bool_decide (p ∉ d).
Proof.
  intros ->. pose proof (merge_vendor_find_spec p d 0) as H.
  simpl in H. case_bool_decide as Hd.
  - apply Nat.eqb_eq. now apply H.
  - apply Nat.eqb_neq. now rewrite H.
Qed.

Lemma merge_vendor_loop_ok (ps d acc : list string) (k : nat) :
  (length (filter (fun p => p ∉ d) ps) <= k)%nat ->
  Forall (fun p => strdup_fails p = false) (filter (fun p => p ∉ d) ps) ->
  merge_vendor_loop strdup_fails ps (length d)
    ((Some <$> (d ++ acc)) ++ replicate k None) (length (d ++ acc))
  = (EOK,
     (Some <$> (d ++ acc ++ filter (fun p => p ∉ d) ps))
     ++ replicate (k - length (filter (fun p => p ∉ d) ps)) None,
     length (d ++ acc ++ filter (fun p => p ∉ d) ps)).
Proof.
  revert acc k. induction ps as [|p ps IH]; intros acc k Hk Hok.
  - cbn [merge_vendor_loop filter list_filter length].
    now rewrite app_nil_r, Nat.sub_0_r.
  - cbn [merge_vendor_loop]. rewrite merge_vendor_scan
      by (rewrite fmap_app, <- app_assoc, take_app_length';
          [reflexivity | now rewrite length_fmap]).
    case_bool_decide as Hd; cbn [negb].
    + rewrite filter_cons_True in Hk, Hok |- * by assumption.
      apply Forall_cons in Hok as [Hp Hok].
      destruct k as [|k]; [simpl in Hk; lia|].
      unfold strdup. rewrite Hp.
      rewrite array_store, array_snoc.
      replace (S (length (d ++ acc))) with (length ((d ++ acc) ++ [p]))
        by (rewrite !length_app; simpl; lia).
      rewrite <- (app_assoc d acc [p]).
      rewrite IH by (simpl in Hk; lia || assumption).
      rewrite <- (app_assoc acc [p]). reflexivity.
    + rewrite filter_cons_False in Hk, Hok |- * by tauto.
      now apply IH.
Qed.

Lemma merge_vendor_loop_fail (ps d : list string)
    (ids : list (option string)) (index : nat) :
  take (length d) ids = Some <$> d ->
  (length d <= index)%nat ->
  ~ Forall (fun p => strdup_fails p = false) (filter (fun p => p ∉ d) ps) ->
  fst (fst (merge_vendor_loop strdup_fails ps (length d) ids index)) <> EOK.
Proof.
  revert ids index. induction ps as [|p ps IH]; intros ids index Hd Hi Hno.
  - destruct Hno. constructor.
  - cbn [merge_vendor_loop]. rewrite merge_vendor_scan by assumption.
    case_bool_decide as Hp; cbn [negb].
    + rewrite filter_cons_True in Hno by assumption. unfold strdup.
      destruct (strdup_fails p) eqn:Hf; [discriminate|].
      apply IH; [now rewrite take_insert_ge | lia |].
      intros Hps. apply Hno. now constructor.
    + rewrite filter_cons_False in Hno by tauto. now apply IH.
Qed.

Lemma merge_custom_loop_ok (ps acc : list string) (k : nat) :
  (length ps <= k)%nat ->
  Forall (fun p => is_Some (custom_id p)) ps ->
  merge_custom_loop custom_id ps
    ((Some <$> acc) ++ replicate k None) (length acc)
  = (EOK,
     (Some <$> (acc ++ omap custom_id ps))
     ++ replicate (k - length ps) None,
     length (acc ++ omap custom_id ps)).
Proof.
  revert acc k. induction ps as [|p ps IH]; intros acc k Hk Hok.
  - cbn [merge_custom_loop length omap list_omap].
    now rewrite app_nil_r, Nat.sub_0_r.
  - apply Forall_cons in Hok as [[q Hp] Hok].
    destruct k as [|k]; [simpl in Hk; lia|].
    cbn [merge_custom_loop omap list_omap]. rewrite Hp.
    rewrite array_store, array_snoc.
    replace (S (length acc)) with (length (acc ++ [q]))
      by (rewrite length_app; simpl; lia).
    rewrite IH by (simpl in Hk; lia || assumption).
    rewrite <- app_assoc. reflexivity.
Qed.

Lemma merge_custom_loop_fail (ps : list string)
    (ids : list (option string)) (index : nat) :
  ~ Forall (fun p => is_Some (custom_id p)) ps ->
  fst (fst (merge_custom_loop custom_id ps ids index)) <> EOK.
Proof.
  revert ids index. induction ps as [|p ps IH]; intros ids index Hno.
  - destruct Hno. constructor.
  - cbn [merge_custom_loop].
    destruct (custom_id p) as [q|] eqn:Hp; [|discriminate].
    apply IH. intros Hps. apply Hno. constructor; [|assumption].
    rewrite Hp. eauto.
Qed.

Lemma omap_all_length (ps : list string) :
  Forall (fun p => is_Some (custom_id p)) ps ->
  length (omap custom_id ps) = length ps.
Proof.
  induction 1 as [|p ps [q Hp] _ IH]; [reflexivity|].
  cbn [omap list_omap]. rewrite Hp. simpl. now f_equal.
Qed.

Lemma merge_default_ok (dir : authselect_dir) (k : nat) :
  (length (profiles dir) <= k)%nat ->
  Forall (fun p => strdup_fails p = false) (profiles dir) ->
  merge_default strdup_fails (replicate k None) 0 dir
  = (EOK, (Some <$> profiles dir)
          ++ replicate (k - length (profiles dir)) None,
     length (profiles dir)).
Proof.
  intros Hk Hok. unfold merge_default.
  exact (merge_default_loop_ok (profiles dir) [] k Hk Hok).
Qed.

Lemma merge_vendor_ok (d : list string) (dir : authselect_dir) (k : nat) :
  (length (filter (fun p => p ∉ d) (profiles dir)) <= k)%nat ->
  Forall (fun p => strdup_fails p = false)
    (filter (fun p => p ∉ d) (profiles dir)) ->
  merge_vendor strdup_fails ((Some <$> d) ++ replicate k None) (length d) dir
  = (EOK,
     (Some <$> (d ++ filter (fun p => p ∉ d) (profiles dir)))
     ++ replicate (k - length (filter (fun p => p ∉ d) (profiles dir)))
          None,
     length (d ++ filter (fun p => p ∉ d) (profiles dir))).
Proof.
  intros Hk Hok. unfold merge_vendor.
  pose proof (merge_vendor_loop_ok (profiles dir) d [] k Hk Hok) as H.
  rewrite app_nil_r in H. exact H.
Qed.

Lemma merge_custom_ok (acc : list string) (dir : authselect_dir) (k : nat) :
  (length (profiles dir) <= k)%nat ->
  Forall (fun p => is_Some (custom_id p)) (profiles dir) ->
  merge_custom custom_id ((Some <$> acc) ++ replicate k None) (length acc)
    dir
  = (EOK,
     (Some <$> (acc ++ omap custom_id (profiles dir)))
     ++ replicate (k - length (profiles dir)) None,
     length (acc ++ omap custom_id (profiles dir))).
Proof. intros Hk Hok. now apply merge_custom_loop_ok. Qed.

Lemma qsort_ids (acc : list string) (k : nat) :
  qsort ((Some <$> acc) ++ replicate (S k) None) (length acc + 1)
    (sort_profile_ids is_custom)
  = (Some <$> sorted_ids is_custom acc) ++ replicate (S k) None.
Proof.
  unfold qsort.
  replace ((Some <$> acc) ++ replicate (S k) None)
    with (((Some <$> acc) ++ [None]) ++ replicate k None)
    by (rewrite <- app_assoc; reflexivity).
  rewrite take_app_length', drop_app_length'
    by (rewrite length_app, length_fmap; simpl; lia).
  rewrite qsort_terminated, <- app_assoc. reflexivity.
Qed.

Lemma accumulated_length (d v c : list string) :
  Forall (fun p => is_Some (custom_id p)) c ->
  length (accumulated custom_id d v c)
  = (length d + length (filter (fun p => p ∉ d) v) + length c)%nat.
Proof.
  intros Hc. unfold accumulated.
  rewrite !length_app, (omap_all_length c Hc). lia.
Qed.

(** What the merge returns when no allocation fails: the sorted
    identifiers, then NULL in every slot that is left. *)
Lemma merge_profiles_ok (profile vendor custom : authselect_dir) :
  allocations_succeed strdup_fails calloc_fails custom_id
    (profiles profile) (profiles vendor) (profiles custom) ->
  authselect_merge_profiles strdup_fails calloc_fails custom_id is_custom
    profile vendor custom
  = Some
      ((Some <$>
          sorted_ids is_custom
            (accumulated custom_id (profiles profile) (profiles vendor)
               (profiles custom)))
       ++ replicate
            (length (profiles profile) + length (profiles vendor)
             + length (profiles custom) + 1
             - length (accumulated custom_id (profiles profile)
                         (profiles vendor) (profiles custom)))
            None).
Proof.
  intros (Hcalloc & Hd & Hv & Hc).
  pose proof (accumulated_length (profiles profile) (profiles vendor)
                (profiles custom) Hc) as Hlen.
  pose proof (length_filter (fun p => p ∉ profiles profile)
                (profiles vendor)) as Hkept.
  unfold authselect_merge_profiles, num_profiles. rewrite Hcalloc.
  rewrite merge_default_ok by (lia || assumption).
  cbn [Z.eqb EOK negb].
  rewrite merge_vendor_ok by (lia || assumption).
  cbn [Z.eqb EOK negb].
  rewrite merge_custom_ok by (lia || assumption).
  cbn [Z.eqb EOK negb].
  rewrite <- app_assoc. fold (accumulated custom_id (profiles profile)
                                (profiles vendor) (profiles custom)).
  match goal with
  | |- context [replicate ?n None] =>
      replace n with
        (S (length (profiles vendor)
            - length (filter (fun p => p ∉ profiles profile)
                        (profiles vendor)))) by lia
  end.
  rewrite qsort_ids. do 3 f_equal. lia.
Qed.

(** When an allocation fails, the merge returns NULL. *)
Lemma merge_profiles_fail (profile vendor custom : authselect_dir) :
  ~ allocations_succeed strdup_fails calloc_fails custom_id
      (profiles profile) (profiles vendor) (profiles custom) ->
  authselect_merge_profiles strdup_fails calloc_fails custom_id is_custom
    profile vendor custom = None.
Proof.
  unfold allocations_succeed. intros Hno.
  pose proof (length_filter (fun p => p ∉ profiles profile)
                (profiles vendor)) as Hkept.
  unfold authselect_merge_profiles, num_profiles.
  destruct (calloc_fails _) eqn:Hcalloc; [reflexivity|].
  destruct (decide (Forall (fun p => strdup_fails p = false)
                      (profiles profile))) as [Hd|Hd].
  2: { pose proof (merge_default_loop_fail (profiles profile)
                     (replicate
                        (length (profiles profile)
                         + length (profiles vendor)
                         + length (profiles custom) + 1) None) 0 Hd) as H.
       unfold merge_default.
       destruct (merge_default_loop _ _ _ _) as [[ret ids] index].
       simpl in H. now destruct (Z.eqb_spec ret EOK). }
  rewrite merge_default_ok by (lia || assumption).
  cbn [Z.eqb EOK negb].
  destruct (decide (Forall (fun p => strdup_fails p = false)
                      (filter (fun p => p ∉ profiles profile)
                         (profiles vendor)))) as [Hv|Hv].
  2: { unfold merge_vendor.
       match goal with
       | |- context [merge_vendor_loop _ _ _ ?ids _] =>
           pose proof (merge_vendor_loop_fail (profiles vendor)
                         (profiles profile) ids
                         (length (profiles profile))) as H
       end.
       destruct (merge_vendor_loop _ _ _ _ _) as [[ret ids] index].
       simpl in H.
       destruct (Z.eqb_spec ret EOK) as [->|]; [|reflexivity].
       exfalso. apply H; [|lia|assumption|reflexivity].
       apply take_app_length'. now rewrite length_fmap. }
  rewrite merge_vendor_ok by (lia || assumption).
  cbn [Z.eqb EOK negb].
  assert (Hc : ~ Forall (fun p => is_Some (custom_id p)) (profiles custom))
    by tauto.
  unfold merge_custom.
  match goal with
  | |- context [merge_custom_loop _ _ ?ids ?index] =>
      pose proof (merge_custom_loop_fail (profiles custom) ids
                    index Hc) as H
  end.
  destruct (merge_custom_loop _ _ _ _) as [[ret ids] index].
  simpl in H. now destruct (Z.eqb_spec ret EOK).
Qed.

#[local] Instance allocations_succeed_dec (d v c : list string) :
  Decision (allocations_succeed strdup_fails calloc_fails custom_id d v c).
Proof. unfold allocations_succeed. apply _. Qed.

Lemma allocations_succeed_perm (d d' v v' c c' : list string) :
  d ≡ₚ d' -> v ≡ₚ v' -> c ≡ₚ c' ->
  allocations_succeed strdup_fails calloc_fails custom_id d v c ->
  allocations_succeed strdup_fails calloc_fails custom_id d' v' c'.
Proof.
  intros Hd Hv Hc (H0 & H1 & H2 & H3). unfold allocations_succeed.
  rewrite <- Hd, <- Hc at 1. rewrite <- Hv at 1.
  repeat split; try assumption.
  - now rewrite <- Hd.
  - rewrite <- Hv.
    rewrite <- (list_filter_iff (fun p => p ∉ d) (fun p => p ∉ d'));
      [assumption|]. intros p. now rewrite Hd.
  - now rewrite <- Hc.
Qed.

Lemma accumulated_perm (d d' v v' c c' : list string) :
  d ≡ₚ d' -> v ≡ₚ v' -> c ≡ₚ c' ->
  accumulated custom_id d v c ≡ₚ accumulated custom_id d' v' c'.
Proof.
  intros Hd Hv Hc. unfold accumulated.
  rewrite <- (list_filter_iff (fun p => p ∉ d) (fun p => p ∉ d'))
    by (intros p; now rewrite Hd).
  now rewrite Hd, Hv, Hc.
Qed.

End MergerFacts.

(** *** The catalog *)

Lemma merge_profiles_catalog (strdup_fails : string -> bool)
    (calloc_fails : nat -> bool) (custom_id : string -> option string)
    (is_custom : string -> bool) (profile vendor custom : authselect_dir)
    (ids : list (option string)) :
  authselect_merge_profiles strdup_fails calloc_fails custom_id is_custom
    profile vendor custom = Some ids ->
  allocations_succeed strdup_fails calloc_fails custom_id
    (profiles profile) (profiles vendor) (profiles custom)
  /\ string_array ids
     = sorted_ids is_custom
         (accumulated custom_id (profiles profile) (profiles vendor)
            (profiles custom)).
Proof.
  intros Hids.
  destruct (decide (allocations_succeed strdup_fails calloc_fails custom_id
                      (profiles profile) (profiles vendor)
                      (profiles custom))) as [Hok|Hno].
  - split; [exact Hok|].
    rewrite (merge_profiles_ok _ _ _ is_custom _ _ _ Hok) in Hids.
    injection Hids as <-.
    pose proof Hok as (_ & _ & _ & Hc).
    pose proof (accumulated_length custom_id (profiles profile)
                  (profiles vendor) (profiles custom) Hc) as Hlen.
    pose proof (length_filter (fun p => p ∉ profiles profile)
                  (profiles vendor)) as Hkept.
    match goal with
    | |- context [replicate ?n None] =>
        replace n with
          (S (length (profiles vendor)
              - length (filter (fun p => p ∉ profiles profile)
                          (profiles vendor)))) by lia
    end.
    apply string_array_terminated.
  - now rewrite (merge_profiles_fail _ _ _ is_custom _ _ _ Hno) in Hids.
Qed.

(** C3. The catalog holds the default profiles, the vendor profiles that are
    not among the default ones (a vendor profile is compared with the
    default entries only, never with another vendor entry) and the custom
    identifiers. So a name that is in the default listing and in the vendor
    listing occurs once in the catalog, the listing of the default directory
    being free of duplicates and the name not being the identifier of a
    custom profile. *)
Theorem vendor_deduplicated_against_default (strdup_fails : string -> bool)
    (calloc_fails : nat -> bool) (custom_id : string -> option string)
    (is_custom : string -> bool) (profile vendor custom : authselect_dir)
    (ids : list (option string)) :
  authselect_merge_profiles strdup_fails calloc_fails custom_id is_custom
    profile vendor custom = Some ids ->
  string_array ids
  ≡ₚ profiles profile
     ++ filter (fun p => p ∉ profiles profile) (profiles vendor)
     ++ omap custom_id (profiles custom)
  /\ (forall name : string,
        name ∈ profiles profile -> name ∈ profiles vendor ->
        NoDup (profiles profile) ->
        name ∉ omap custom_id (profiles custom) ->
        count_occ string_dec (string_array ids) name = 1%nat).
Proof.
  intros Hids. apply merge_profiles_catalog in Hids as [_ Hcat].
  assert (Hperm : string_array ids
                  ≡ₚ accumulated custom_id (profiles profile)
                       (profiles vendor) (profiles custom))
    by (rewrite Hcat; apply sorted_ids_Permutation).
  split; [exact Hperm|].
  intros name Hd Hv Hnodup Hcustom.
  rewrite (proj1 (Permutation_count_occ string_dec _ _) Hperm).
  unfold accumulated. rewrite !count_occ_app.
  rewrite (proj1 (NoDup_count_occ' string_dec _)
             (proj1 (NoDup_ListNoDup _) Hnodup))
    by (now apply list_elem_of_In).
  rewrite (proj1 (count_occ_not_In string_dec _ name)).
  - rewrite (proj1 (count_occ_not_In string_dec _ name)); [reflexivity|].
    now rewrite <- list_elem_of_In.
  - rewrite <- list_elem_of_In, list_elem_of_filter. tauto.
Qed.

Lemma vendor_deduplicated_against_default_witness :
  string_array [Some "local"; Some "sssd"; Some "winbind";
                Some "custom/mine"; None; None]
  ≡ₚ ["sssd"; "winbind"] ++ filter (fun p => p ∉ ["sssd"; "winbind"])
                               ["winbind"; "local"]
     ++ omap spec_profile_custom_id ["mine"]
  /\ count_occ string_dec
       (string_array [Some "local"; Some "sssd"; Some "winbind";
                      Some "custom/mine"; None; None]) "winbind" = 1%nat.
Proof.
  pose proof (vendor_deduplicated_against_default
                (fun _ => false) (fun _ => false)
                spec_profile_custom_id spec_is_custom_profile
                {| dir_path := "default"; profiles := ["sssd"; "winbind"] |}
                {| dir_path := "vendor"; profiles := ["winbind"; "local"] |}
                {| dir_path := "custom"; profiles := ["mine"] |}
                [Some "local"; Some "sssd"; Some "winbind";
                 Some "custom/mine"; None; None] eq_refl) as [H1 H2].
  split; [exact H1|].
  apply H2; cbn [profiles].
  - apply list_elem_of_In. vm_compute. tauto.
  - apply list_elem_of_In. vm_compute. tauto.
  - apply NoDup_cons. split; [|apply NoDup_singleton].
    rewrite list_elem_of_In. vm_compute. intros [H|[]]. discriminate.
  - rewrite list_elem_of_In. vm_compute. intros [H|[]]. discriminate.
Defined.

(** C4. With the default listing sssd, winbind, the vendor listing winbind,
    local and the custom listing mine, the merge returns local, sssd,
    winbind, custom/mine: the vendor's winbind is dropped, the custom entry
    carries its namespace, and the plain identifiers come in byte order
    before the custom one. The array ends with the NULL terminator and the
    slot the dropped entry left. *)
Theorem merge_catalog_example :
  merge_catalog ["sssd"; "winbind"] ["winbind"; "local"] ["mine"]
  = Some [Some "local"; Some "sssd"; Some "winbind"; Some "custom/mine";
          None; None]
  /\ string_array <$>
       merge_catalog ["sssd"; "winbind"] ["winbind"; "local"] ["mine"]
     = Some ["local"; "sssd"; "winbind"; "custom/mine"]
  /\ Sorted (profile_le spec_is_custom_profile)
       ["local"; "sssd"; "winbind"; "custom/mine"]
  /\ map spec_is_custom_profile ["local"; "sssd"; "winbind"; "custom/mine"]
     = [false; false; false; true].
Proof.
  split; [vm_compute; reflexivity|].
  split; [vm_compute; reflexivity|].
  split; [|vm_compute; reflexivity].
  repeat constructor; vm_compute; discriminate.
Qed.

(** C5. Permuting the entries inside the listings before the merge does not
    change what the merge returns. The entries need not be unique for
    this. *)
Theorem merge_invariant_under_permutation (strdup_fails : string -> bool)
    (calloc_fails : nat -> bool) (custom_id : string -> option string)
    (is_custom : string -> bool)
    (profile profile' vendor vendor' custom custom' : authselect_dir) :
  profiles profile ≡ₚ profiles profile' ->
  profiles vendor ≡ₚ profiles vendor' ->
  profiles custom ≡ₚ profiles custom' ->
  authselect_merge_profiles strdup_fails calloc_fails custom_id is_custom
    profile vendor custom
  = authselect_merge_profiles strdup_fails calloc_fails custom_id is_custom
      profile' vendor' custom'.
Proof.
  intros Hd Hv Hc.
  destruct (decide (allocations_succeed strdup_fails calloc_fails custom_id
                      (profiles profile) (profiles vendor)
                      (profiles custom))) as [Hok|Hno].
  - pose proof (allocations_succeed_perm _ _ _ _ _ _ _ _ _ Hd Hv Hc Hok)
      as Hok'.
    rewrite (merge_profiles_ok _ _ _ is_custom _ _ _ Hok).
    rewrite (merge_profiles_ok _ _ _ is_custom _ _ _ Hok').
    pose proof (accumulated_perm custom_id _ _ _ _ _ _ Hd Hv Hc) as Hacc.
    rewrite (sorted_ids_perm_eq is_custom _ _ Hacc).
    now rewrite Hacc, Hd, Hv, Hc.
  - rewrite (merge_profiles_fail _ _ _ is_custom _ _ _ Hno).
    symmetry. apply merge_profiles_fail. intros Hok'. apply Hno.
    now apply (allocations_succeed_perm _ _ _ _ _ _ _ _ _
                 (symmetry Hd) (symmetry Hv) (symmetry Hc)).
Qed.

Lemma merge_invariant_under_permutation_witness :
  merge_catalog ["sssd"; "winbind"] ["winbind"; "local"] ["mine"; "lab"]
  = merge_catalog ["winbind"; "sssd"] ["local"; "winbind"] ["lab"; "mine"]
  /\ merge_catalog ["winbind"; "sssd"] ["local"; "winbind"] ["lab"; "mine"]
     = Some [Some "local"; Some "sssd"; Some "winbind"; Some "custom/lab";
             Some "custom/mine"; None; None].
Proof.
  split; [|vm_compute; reflexivity].
  apply merge_invariant_under_permutation; cbn [profiles];
    apply Permutation_swap.
Defined.

(** *** Choices of the model *)

(** check_notalink compares as check_link does: a link is reported as one
    of authselect exactly when its target as read equals the first bytes of
    the expected destination. *)
Lemma check_notalink_compares_prefix (w : world) (linkpath destpath : string)
    (v : bool) (statbuf : stat) (linkbuf : string) :
  sys_lstat w linkpath = Done statbuf ->
  S_ISLNK (st_mode statbuf) = true ->
  readlink w linkpath (PATH_MAX + 1) = Done linkbuf ->
  check_notalink w linkpath destpath v
  = (EOK,
     negb (strcmp linkbuf (substring 0 (String.length linkbuf) destpath)
           =? 0)).
Proof.
  intros Hstat Hlnk Hlink. unfold check_notalink.
  rewrite Hstat, Hlnk. cbn -[Nat.add readlink].
  rewrite Hlink, strncmp_strcmp. now destruct (strcmp linkbuf _ =? 0).
Qed.

(** The value of an unassigned [bool] is never looked at: the verifier
    returns the same on a host that differs in it only. *)

Lemma check_file_cell (w : world) (p : string) (u g m : Z) (c1 c2 v : bool) :
  (let '(ret, bret) := check_file w p u g m c1 in
   if negb (ret =? EOK) then (ret, v) else (EOK, bret))
  = (let '(ret, bret) := check_file w p u g m c2 in
     if negb (ret =? EOK) then (ret, v) else (EOK, bret)).
Proof.
  unfold check_file.
  rewrite (check_internal_cell w p u g _ c1), (check_internal_cell w p u g _ c2).
  destruct (check_internal w p u g _ false) as [r b]. simpl.
  destruct (Z.eqb_spec r EOK); simpl; [reflexivity|].
  now destruct (Z.eqb_spec r EOK).
Qed.

Lemma check_generated_file_indeterminate (w : world) (b : bool) (p : string)
    (c : option string) (v : bool) :
  check_generated_file (with_indeterminate w b) p c v
  = check_generated_file w p c v.
Proof.
  unfold check_generated_file.
  change (read_textfile (with_indeterminate w b) p None)
    with (read_textfile w p None).
  destruct (read_textfile w p None) as [ret text].
  destruct (ret =? ENOENT); [reflexivity|].
  destruct (ret =? EACCES); [reflexivity|].
  destruct (negb (ret =? EOK)); [reflexivity|].
  destruct (negb _); [reflexivity|].
  apply (check_file_cell w p _ _ _ b (indeterminate w) v).
Qed.

Lemma check_generated_files_loop_indeterminate (w : world) (b : bool)
    (gens : list authselect_generated) (r v : bool) :
  check_generated_files_loop (with_indeterminate w b) gens r v
  = check_generated_files_loop w gens r v.
Proof.
  revert r v. induction gens as [|g gens IH]; intros r v; [reflexivity|].
  cbn [check_generated_files_loop].
  rewrite check_generated_file_indeterminate.
  destruct (check_generated_file w _ _ v) as [ret b'].
  destruct (negb (ret =? EOK)); [reflexivity | apply IH].
Qed.

Lemma check_symlinks_loop_cell (w : world) (links : list authselect_symlink)
    (r v1 v2 : bool) :
  check_symlinks_loop w links r v1 = check_symlinks_loop w links r v2.
Proof.
  destruct links as [|s links]; [reflexivity|]. cbn [check_symlinks_loop].
  destruct (check_link_cell w (name s) (dest s) v1) as [F1 E1].
  destruct (check_link_cell w (name s) (dest s) v2) as [F2 E2].
  destruct (Z.eq_dec (fst (check_link w (name s) (dest s) false)) EOK)
    as [H|H].
  - now rewrite (E1 H), (E2 H).
  - destruct (check_link w (name s) (dest s) v1) as [e1 b1],
      (check_link w (name s) (dest s) v2) as [e2 b2]. simpl in F1, F2.
    rewrite <- F1 in H. rewrite <- F2 in F1. subst e2.
    now destruct (Z.eqb_spec e1 EOK).
Qed.

Lemma check_symlinks_loop_indeterminate (w : world) (b : bool)
    (links : list authselect_symlink) (r v : bool) :
  check_symlinks_loop (with_indeterminate w b) links r v
  = check_symlinks_loop w links r v.
Proof.
  revert r v. induction links as [|s links IH]; intros r v; [reflexivity|].
  cbn [check_symlinks_loop].
  change (check_link (with_indeterminate w b) (name s) (dest s) v)
    with (check_link w (name s) (dest s) v).
  destruct (check_link w _ _ v) as [ret b'].
  destruct (negb (ret =? EOK)); [reflexivity | apply IH].
Qed.

Lemma check_notalink_cell (w : world) (l d : string) (v : bool) :
  fst (check_notalink w l d v) = fst (check_notalink w l d false) /\
  (fst (check_notalink w l d false) = EOK ->
   check_notalink w l d v = check_notalink w l d false).
Proof.
  unfold check_notalink. destruct (sys_lstat w l) as [e|sb]; cbv zeta.
  - destruct (Z.pos e =? ENOENT); simpl; [tauto|]. split; [reflexivity|].
    discriminate.
  - destruct (negb _); [tauto|].
    destruct (readlink w l _) as [e|linkbuf]; simpl.
    + split; [reflexivity | discriminate].
    + destruct (_ =? 0); tauto.
Qed.

Lemma check_missing_links_loop_cell (w : world)
    (links : list authselect_symlink) (r v1 v2 : bool) :
  check_missing_links_loop w links r v1
  = check_missing_links_loop w links r v2.
Proof.
  revert r v1 v2.
  induction links as [|s links IH]; intros r v1 v2; [reflexivity|].
  cbn [check_missing_links_loop].
  destruct (check_exists w (name s) =? EOK).
  - destruct (check_notalink_cell w (name s) (dest s) v1) as [F1 E1].
    destruct (check_notalink_cell w (name s) (dest s) v2) as [F2 E2].
    destruct (Z.eq_dec (fst (check_notalink w (name s) (dest s) false)) EOK)
      as [H|H].
    + now rewrite (E1 H), (E2 H).
    + destruct (check_notalink w (name s) (dest s) v1) as [e1 b1],
        (check_notalink w (name s) (dest s) v2) as [e2 b2].
      simpl in F1, F2. rewrite <- F1 in H. rewrite <- F2 in F1. subst e2.
      now destruct (Z.eqb_spec e1 EOK).
  - destruct (negb _); [reflexivity | apply IH].
Qed.

Lemma check_missing_links_loop_indeterminate (w : world) (b : bool)
    (links : list authselect_symlink) (r v : bool) :
  check_missing_links_loop (with_indeterminate w b) links r v
  = check_missing_links_loop w links r v.
Proof.
  revert r v. induction links as [|s links IH]; intros r v; [reflexivity|].
  cbn [check_missing_links_loop].
  change (check_exists (with_indeterminate w b) (name s))
    with (check_exists w (name s)).
  change (check_notalink (with_indeterminate w b) (name s) (dest s) v)
    with (check_notalink w (name s) (dest s) v).
  destruct (check_exists w (name s) =? EOK).
  - destruct (check_notalink w _ _ v) as [ret b'].
    destruct (negb (ret =? EOK)); [reflexivity | apply IH].
  - destruct (negb _); [reflexivity | apply IH].
Qed.

Lemma check_missing_files_loop_indeterminate (w : world) (b : bool)
    (gens : list authselect_generated) (r : bool) :
  check_missing_files_loop (with_indeterminate w b) gens r
  = check_missing_files_loop w gens r.
Proof.
  revert r. induction gens as [|g gens IH]; intros r; [reflexivity|].
  cbn [check_missing_files_loop].
  change (check_exists (with_indeterminate w b) (path g))
    with (check_exists w (path g)).
  destruct (check_exists w (path g) =? EOK); [apply IH|].
  destruct (negb _); [reflexivity | apply IH].
Qed.

Lemma authselect_check_conf_indeterminate (w : world) (b v : bool) :
  authselect_check_conf (with_indeterminate w b) v
  = authselect_check_conf w v.
Proof.
  unfold authselect_check_conf.
  change (authselect_read_conf (with_indeterminate w b))
    with (authselect_read_conf w).
  destruct (authselect_read_conf w) as [ret [pid feats]].
  destruct (ret =? ENOENT).
  - unfold check_missing_conf.
    change (GENERATED_FILES_PATHS (with_indeterminate w b))
      with (GENERATED_FILES_PATHS w).
    change (SYMLINK_FILES (with_indeterminate w b)) with (SYMLINK_FILES w).
    rewrite check_missing_files_loop_indeterminate.
    destruct (check_missing_files_loop w _ true) as [e r].
    destruct (negb (e =? EOK)); [reflexivity|].
    rewrite check_missing_links_loop_indeterminate.
    now rewrite (check_missing_links_loop_cell w _ r
                   (indeterminate (with_indeterminate w b))
                   (indeterminate w)).
  - destruct (negb (ret =? EOK)); [reflexivity|].
    unfold check_existing_conf.
    change (authselect_cat (with_indeterminate w b) pid feats)
      with (authselect_cat w pid feats).
    destruct (authselect_cat w pid feats) as [e files].
    destruct (negb (e =? EOK)); [reflexivity|].
    unfold check_generated_files, check_symlinks.
    change (GENERATED_FILES (with_indeterminate w b) files)
      with (GENERATED_FILES w files).
    change (SYMLINK_FILES (with_indeterminate w b)) with (SYMLINK_FILES w).
    rewrite check_generated_files_loop_indeterminate.
    destruct (check_generated_files_loop w _ true false) as [e1 r1].
    destruct (Z.eqb_spec e1 EOK) as [->|He1]; cbn [negb];
      [|now destruct (Z.eqb_spec e1 EOK)].
    rewrite check_symlinks_loop_indeterminate.
    now rewrite (check_symlinks_loop_cell w _ true
                   (indeterminate (with_indeterminate w b))
                   (indeterminate w)).
Qed.

(** Insertion sort stands for qsort without loss: on the identifiers and
    the NULL that ends them, every arrangement that is sorted by
    sort_profile_ids is the one [qsort] gives. *)

Lemma Sorted_null_last (is_custom : string -> bool)
    (l1 l2 : list (option string)) :
  Sorted (fun a b => sort_profile_ids is_custom a b <= 0) (l1 ++ None :: l2) ->
  l2 = [].
Proof.
  induction l1 as [|x l1 IH]; cbn [app]; intros H.
  - inversion H as [|? ? _ Hhd]; subst.
    destruct l2 as [|y l2]; [reflexivity|].
    inversion Hhd as [|? ? Hle]; subst. unfold sort_profile_ids in Hle. lia.
  - inversion H; auto.
Qed.

Lemma omap_id_Some (s : list string) : omap id (Some <$> s) = s.
Proof. induction s as [|x s IH]; [reflexivity|]. simpl. now f_equal. Qed.

Lemma all_Some (l : list (option string)) (acc : list string) :
  (forall x, x ∈ l -> x ∈ Some <$> acc) -> l = Some <$> omap id l.
Proof.
  induction l as [|x l IH]; intros H; [reflexivity|].
  destruct x as [s|].
  - simpl. f_equal. apply IH. intros x Hx. apply H. now right.
  - assert (Hin : None ∈ Some <$> acc) by (apply H; left).
    apply list_elem_of_fmap in Hin as (y & Hy & _). discriminate.
Qed.

Lemma Sorted_strings (is_custom : string -> bool) (s : list string)
    (rest : list (option string)) :
  Sorted (fun a b => sort_profile_ids is_custom a b <= 0)
    ((Some <$> s) ++ rest) ->
  Sorted (profile_le is_custom) s.
Proof.
  induction s as [|a s IH]; intros H; [constructor|].
  rewrite fmap_cons in H. cbn [app] in H.
  inversion H as [|? ? Hs Hhd]; subst.
  constructor; [now apply IH|].
  destruct s as [|b s]; [constructor|].
  constructor. now inversion Hhd.
Qed.

Lemma qsort_any_algorithm (is_custom : string -> bool) (acc : list string)
    (l' : list (option string)) :
  l' ≡ₚ (Some <$> acc) ++ [None] ->
  Sorted (fun a b => sort_profile_ids is_custom a b <= 0) l' ->
  l' = (Some <$> sorted_ids is_custom acc) ++ [None].
Proof.
  intros Hp Hs.
  assert (Hin : None ∈ l')
    by (rewrite Hp, elem_of_app; right; constructor).
  apply list_elem_of_split in Hin as (l1 & l2 & ->).
  pose proof (Sorted_null_last _ _ _ Hs) as ->.
  apply Permutation_app_inv_r in Hp.
  assert (Hl1 : l1 = Some <$> omap id l1).
  { apply all_Some with acc. intros x Hx. now rewrite <- Hp. }
  rewrite Hl1 in Hp, Hs |- *. f_equal. f_equal.
  apply sorted_ids_unique.
  - rewrite <- (omap_id_Some (omap id l1)), <- (omap_id_Some acc).
    now rewrite Hp.
  - now apply Sorted_strings in Hs.
Qed.

(** ** Further properties *)

(** *** The merged catalog *)

(** X1. authselect_merge_profiles returns NULL exactly when one of its
    allocations fails: the calloc of the array, the strdup of a default
    profile or of a vendor profile that is kept, or the identifier of a
    custom profile. There is no partial catalog. *)
Theorem merge_NULL_iff_allocation_fails (strdup_fails : string -> bool)
    (calloc_fails : nat -> bool) (custom_id : string -> option string)
    (is_custom : string -> bool) (profile vendor custom : authselect_dir) :
  authselect_merge_profiles strdup_fails calloc_fails custom_id is_custom
    profile vendor custom = None
  <-> ~ allocations_succeed strdup_fails calloc_fails custom_id
        (profiles profile) (profiles vendor) (profiles custom).
Proof.
  split.
  - intros Hnone Hok.
    now rewrite (merge_profiles_ok _ _ _ is_custom _ _ _ Hok) in Hnone.
  - apply merge_profiles_fail.
Qed.

(** X2. The array that is returned has one slot more than the three
    listings have entries; it holds the catalog and then NULL in every slot
    that is left, of which there is at least one. The catalog has as many
    entries as there are default profiles, vendor profiles not among the
    default ones, and custom profiles. *)
Theorem merge_array_terminated (strdup_fails : string -> bool)
    (calloc_fails : nat -> bool) (custom_id : string -> option string)
    (is_custom : string -> bool) (profile vendor custom : authselect_dir)
    (ids : list (option string)) :
  authselect_merge_profiles strdup_fails calloc_fails custom_id is_custom
    profile vendor custom = Some ids ->
  length ids
  = (length (profiles profile) + length (profiles vendor)
     + length (profiles custom) + 1)%nat
  /\ length (string_array ids)
     = (length (profiles profile)
        + length (filter (fun p => p ∉ profiles profile) (profiles vendor))
        + length (profiles custom))%nat
  /\ (length (string_array ids) < length ids)%nat
  /\ ids
     = (Some <$> string_array ids)
       ++ replicate (length ids - length (string_array ids)) None.
Proof.
  intros Hids.
  pose proof (merge_profiles_catalog _ _ _ _ _ _ _ _ Hids) as [Hok Hcat].
  pose proof Hok as (_ & _ & _ & Hc).
  pose proof (accumulated_length custom_id (profiles profile)
                (profiles vendor) (profiles custom) Hc) as Hlen.
  pose proof (length_filter (fun p => p ∉ profiles profile)
                (profiles vendor)) as Hkept.
  assert (Hcl : length (string_array ids)
                = length (accumulated custom_id (profiles profile)
                            (profiles vendor) (profiles custom)))
    by (rewrite Hcat; apply Permutation_length, sorted_ids_Permutation).
  rewrite (merge_profiles_ok _ _ _ is_custom _ _ _ Hok) in Hids.
  injection Hids as Hids.
  assert (Hl : length ids
               = (length (profiles profile) + length (profiles vendor)
                  + length (profiles custom) + 1)%nat).
  { rewrite <- Hids, length_app, length_fmap, length_replicate.
    rewrite (Permutation_length (sorted_ids_Permutation is_custom _)). lia. }
  repeat apply conj; [exact Hl | lia | lia |].
  rewrite Hcat, Hl, (Permutation_length (sorted_ids_Permutation is_custom _)).
  now rewrite Hids.
Qed.

Lemma merge_array_terminated_witness :
  length [Some "local"; Some "sssd"; Some "winbind"; Some "custom/mine";
          None; None] = 6%nat.
Proof.
  exact (proj1 (merge_array_terminated (fun _ => false) (fun _ => false)
                  spec_profile_custom_id spec_is_custom_profile
                  {| dir_path := "default"; profiles := ["sssd"; "winbind"] |}
                  {| dir_path := "vendor"; profiles := ["winbind"; "local"] |}
                  {| dir_path := "custom"; profiles := ["mine"] |}
                  _ eq_refl)).
Defined.

Lemma catalog_Permutation (strdup_fails : string -> bool)
    (calloc_fails : nat -> bool) (custom_id : string -> option string)
    (is_custom : string -> bool) (profile vendor custom : authselect_dir)
    (ids : list (option string)) :
  authselect_merge_profiles strdup_fails calloc_fails custom_id is_custom
    profile vendor custom = Some ids ->
  string_array ids
  ≡ₚ accumulated custom_id (profiles profile) (profiles vendor)
       (profiles custom).
Proof.
  intros Hids. apply merge_profiles_catalog in Hids as [_ ->].
  apply sorted_ids_Permutation.
Qed.

(** X3. The catalog is in the order of sort_profile_ids: of two entries the
    earlier one is custom only if the later one is, and when both are
    custom or both are plain the earlier one is not greater in strcmp. *)
Theorem catalog_sorted_custom_last (strdup_fails : string -> bool)
    (calloc_fails : nat -> bool) (custom_id : string -> option string)
    (is_custom : string -> bool) (profile vendor custom : authselect_dir)
    (ids : list (option string)) :
  authselect_merge_profiles strdup_fails calloc_fails custom_id is_custom
    profile vendor custom = Some ids ->
  forall (l1 l2 : list string) (x y : string),
    string_array ids = l1 ++ x :: l2 -> y ∈ l2 ->
    (is_custom x = true -> is_custom y = true)
    /\ (is_custom x = is_custom y -> strcmp x y <= 0).
Proof.
  intros Hids l1 l2 x y Hsplit Hy.
  apply merge_profiles_catalog in Hids as [_ Hcat].
  pose proof (sorted_ids_Sorted is_custom
                (accumulated custom_id (profiles profile) (profiles vendor)
                   (profiles custom))) as Hs.
  rewrite <- Hcat, Hsplit in Hs.
  pose proof (profile_le_trans is_custom) as Htrans.
  apply (Sorted_StronglySorted (profile_le is_custom)) in Hs.
  apply StronglySorted_app_1_r in Hs.
  apply StronglySorted_inv in Hs as [_ Hall].
  rewrite Forall_forall in Hall. specialize (Hall y Hy).
  unfold profile_le, sort_profile_ids in Hall.
  destruct (is_custom x), (is_custom y); simpl in Hall; split; intros;
    try discriminate; try reflexivity; lia.
Qed.

Lemma catalog_sorted_custom_last_witness :
  (spec_is_custom_profile "sssd" = true ->
   spec_is_custom_profile "custom/mine" = true)
  /\ (spec_is_custom_profile "sssd" = spec_is_custom_profile "custom/mine" ->
      strcmp "sssd" "custom/mine" <= 0).
Proof.
  apply (catalog_sorted_custom_last (fun _ => false) (fun _ => false)
           spec_profile_custom_id spec_is_custom_profile
           {| dir_path := "default"; profiles := ["sssd"; "winbind"] |}
           {| dir_path := "vendor"; profiles := ["winbind"; "local"] |}
           {| dir_path := "custom"; profiles := ["mine"] |}
           _ eq_refl ["local"] ["winbind"; "custom/mine"]).
  - reflexivity.
  - right. left.
Defined.

(** X4. An identifier is in the catalog exactly when it is a default
    profile, a vendor profile, or the identifier of a custom profile:
    nothing is lost but the second copy of a name, and nothing is made
    up. *)
Theorem catalog_membership (strdup_fails : string -> bool)
    (calloc_fails : nat -> bool) (custom_id : string -> option string)
    (is_custom : string -> bool) (profile vendor custom : authselect_dir)
    (ids : list (option string)) :
  authselect_merge_profiles strdup_fails calloc_fails custom_id is_custom
    profile vendor custom = Some ids ->
  forall x : string,
    x ∈ string_array ids
    <-> x ∈ profiles profile \/ x ∈ profiles vendor
        \/ exists c : string, c ∈ profiles custom /\ custom_id c = Some x.
Proof.
  intros Hids x. rewrite (catalog_Permutation _ _ _ _ _ _ _ _ Hids).
  unfold accumulated.
  rewrite !elem_of_app, list_elem_of_filter, list_elem_of_omap.
  destruct (decide (x ∈ profiles profile)); tauto.
Qed.

Lemma catalog_membership_witness :
  "custom/mine" ∈ ["local"; "sssd"; "winbind"; "custom/mine"]
  <-> "custom/mine" ∈ ["sssd"; "winbind"]
      \/ "custom/mine" ∈ ["winbind"; "local"]
      \/ exists c : string,
           c ∈ ["mine"] /\ spec_profile_custom_id c = Some "custom/mine".
Proof.
  exact (catalog_membership (fun _ => false) (fun _ => false)
           spec_profile_custom_id spec_is_custom_profile
           {| dir_path := "default"; profiles := ["sssd"; "winbind"] |}
           {| dir_path := "vendor"; profiles := ["winbind"; "local"] |}
           {| dir_path := "custom"; profiles := ["mine"] |}
           _ eq_refl "custom/mine").
Defined.

(** X5. The catalog has no identifier twice when no listing has a name
    twice, no two custom profiles get the same identifier, and no
    identifier of a custom profile is the name of a default or of a vendor
    profile. *)
Theorem catalog_NoDup (strdup_fails : string -> bool)
    (calloc_fails : nat -> bool) (custom_id : string -> option string)
    (is_custom : string -> bool) (profile vendor custom : authselect_dir)
    (ids : list (option string)) :
  authselect_merge_profiles strdup_fails calloc_fails custom_id is_custom
    profile vendor custom = Some ids ->
  NoDup (profiles profile) -> NoDup (profiles vendor) ->
  NoDup (omap custom_id (profiles custom)) ->
  (forall x : string,
     x ∈ omap custom_id (profiles custom) ->
     (x ∉ profiles profile) /\ (x ∉ profiles vendor)) ->
  NoDup (string_array ids).
Proof.
  intros Hids Hd Hv Hc Hsep.
  rewrite (catalog_Permutation _ _ _ _ _ _ _ _ Hids). unfold accumulated.
  apply NoDup_app. split; [exact Hd|]. split.
  - intros x Hx. rewrite elem_of_app, list_elem_of_filter.
    intros [[Hnot _]|Hcust]; [contradiction|].
    now apply Hsep in Hcust.
  - apply NoDup_app. split; [now apply NoDup_filter|]. split; [|exact Hc].
    intros x Hx Hcust. apply list_elem_of_filter in Hx as [_ Hx].
    now apply Hsep in Hcust.
Qed.

Lemma catalog_NoDup_witness :
  NoDup (string_array [Some "local"; Some "sssd"; Some "winbind";
                       Some "custom/mine"; None; None]).
Proof.
  apply (catalog_NoDup (fun _ => false) (fun _ => false)
           spec_profile_custom_id spec_is_custom_profile
           {| dir_path := "default"; profiles := ["sssd"; "winbind"] |}
           {| dir_path := "vendor"; profiles := ["winbind"; "local"] |}
           {| dir_path := "custom"; profiles := ["mine"] |}
           _ eq_refl); cbn [profiles].
  - apply (bool_decide_unpack _). vm_compute. exact I.
  - apply (bool_decide_unpack _). vm_compute. exact I.
  - apply (bool_decide_unpack _). vm_compute. exact I.
  - intros x Hx. apply list_elem_of_In in Hx. vm_compute in Hx.
    destruct Hx as [<-|[]].
    split; apply (bool_decide_unpack _); vm_compute; exact I.
Defined.

(** X6. sort_profile_ids is a comparator qsort can work with as long as at
    most one of the pointers compared is NULL: swapping the arguments
    negates the result, the result is 0 for equal strings only, and "not
    greater" is transitive. NULL is greater than every string, and also
    than NULL itself. *)
Theorem sort_profile_ids_comparator (is_custom : string -> bool) :
  (forall a b : option string,
     a <> None \/ b <> None ->
     sort_profile_ids is_custom a b = - sort_profile_ids is_custom b a)
  /\ (forall a b : string,
        sort_profile_ids is_custom (Some a) (Some b) = 0 <-> a = b)
  /\ (forall a b c : option string,
        sort_profile_ids is_custom a b <= 0 ->
        sort_profile_ids is_custom b c <= 0 ->
        sort_profile_ids is_custom a c <= 0)
  /\ (forall b : option string, sort_profile_ids is_custom None b = 1).
Proof.
  repeat apply conj.
  - intros [a|] [b|] H; try reflexivity; [|destruct H; congruence].
    unfold sort_profile_ids. rewrite (strcmp_antisym b a).
    destruct (is_custom a), (is_custom b); simpl; lia.
  - intros a b. unfold sort_profile_ids. split.
    + destruct (is_custom a), (is_custom b); simpl; try discriminate;
        apply strcmp_eq.
    + intros ->. rewrite strcmp_refl.
      destruct (is_custom b); reflexivity.
  - intros [a|] [b|] [c|]; try (unfold sort_profile_ids; lia).
    apply (profile_le_trans is_custom).
  - reflexivity.
Qed.

Lemma sort_profile_ids_comparator_witness :
  sort_profile_ids spec_is_custom_profile (Some "custom/a") (Some "sssd")
  = - sort_profile_ids spec_is_custom_profile (Some "sssd") (Some "custom/a")
  /\ sort_profile_ids spec_is_custom_profile (Some "local") (Some "custom/a")
     <= 0.
Proof.
  split.
  - apply (proj1 (sort_profile_ids_comparator spec_is_custom_profile)).
    left. discriminate.
  - apply (proj1 (proj2 (proj2
             (sort_profile_ids_comparator spec_is_custom_profile)))
             _ (Some "custom/") _); vm_compute; discriminate.
Defined.

(** *** What makes a file and a link valid *)

Lemma check_mode_iff (sb : stat) (uid gid mode : Z) :
  check_mode (Some sb) uid gid mode = true
  <-> Z.land mode S_IFMT = Z.land (st_mode sb) S_IFMT
      /\ Z.land mode ALLPERMS = Z.land (st_mode sb) ALLPERMS
      /\ (uid = ID_NONE \/ st_uid sb = uid)
      /\ (gid = ID_NONE \/ st_gid sb = gid).
Proof.
  unfold check_mode, check_type.
  destruct (Z.eqb_spec (Z.land mode S_IFMT) (Z.land (st_mode sb) S_IFMT));
    simpl; [|intuition discriminate].
  destruct (Z.eqb_spec (Z.land mode ALLPERMS)
              (Z.land (st_mode sb) ALLPERMS));
    simpl; [|intuition discriminate].
  destruct (Z.eqb_spec uid ID_NONE), (Z.eqb_spec (st_uid sb) uid),
    (Z.eqb_spec gid ID_NONE), (Z.eqb_spec (st_gid sb) gid); simpl;
    intuition (discriminate || congruence).
Qed.

(** X7. A generated file that can be read and whose status lstat gives is
    valid exactly when its text has the layout with the expected body and
    the file is a regular file with the mode bits 0644 (no other bit of
    07777 set), owned by AUTHSELECT_UID and AUTHSELECT_GID, where the value
    (uid_t)-1 or (gid_t)-1 of such a constant switches that comparison
    off. *)
Theorem check_generated_file_valid_iff (w : world) (path : string)
    (expected : option string) (v : bool) (text : string) (sb : stat) :
  read_textfile w path None = (EOK, Some text) ->
  sys_lstat w path = Done sb ->
  exists b : bool,
    check_generated_file w path expected v = (EOK, b)
    /\ (b = true
        <-> generated_layout text (default EmptyString expected)
            /\ Z.land (st_mode sb) S_IFMT = S_IFREG
            /\ Z.land (st_mode sb) ALLPERMS = 0x1A4
            /\ (AUTHSELECT_UID w = ID_NONE \/ st_uid sb = AUTHSELECT_UID w)
            /\ (AUTHSELECT_GID w = ID_NONE \/ st_gid sb = AUTHSELECT_GID w)).
Proof.
  intros Hread Hstat. unfold check_generated_file. rewrite Hread.
  cbn [Z.eqb EOK ENOENT EACCES negb].
  pose proof (check_content_layout text (default EmptyString expected)) as Hl.
  replace (match expected with Some e => e | None => EmptyString end)
    with (default EmptyString expected) by (now destruct expected).
  destruct (check_content text _); cbn [negb].
  - unfold check_file, check_internal. rewrite Hstat. cbn [Z.eqb EOK negb].
    eexists. split; [reflexivity|].
    rewrite check_mode_iff.
    change (Z.land (Z.lor S_IFREG _) S_IFMT) with S_IFREG.
    change (Z.land (Z.lor S_IFREG _) ALLPERMS) with 0x1A4.
    intuition congruence.
  - exists false. split; [reflexivity|]. intuition discriminate.
Qed.

Lemma check_generated_file_valid_iff_witness :
  exists b : bool,
    check_generated_file host_configured "/etc/authselect/nsswitch.conf"
      (Some nsswitch_body) false = (EOK, b)
    /\ (b = true
        <-> generated_layout nsswitch_text nsswitch_body
            /\ Z.land (Z.lor S_IFREG perm_0644) S_IFMT = S_IFREG
            /\ Z.land (Z.lor S_IFREG perm_0644) ALLPERMS = 0x1A4
            /\ (0 = ID_NONE \/ 0 = 0)
            /\ (0 = ID_NONE \/ 0 = 0)).
Proof.
  apply (check_generated_file_valid_iff host_configured
           "/etc/authselect/nsswitch.conf" (Some nsswitch_body) false
           nsswitch_text
           {| st_mode := Z.lor S_IFREG perm_0644; st_uid := 0; st_gid := 0 |});
    vm_compute; reflexivity.
Defined.

(** X8. check_link reports a link as valid exactly when lstat finds a
    symbolic link whose bits under 07777 are 0777 and readlink gives a
    target that is a prefix of the expected destination. The owner of the
    link plays no part. In every other case that returns EOK the link is
    invalid. *)
Theorem check_link_valid_iff (w : world) (linkpath destpath : string)
    (v : bool) :
  check_link w linkpath destpath v = (EOK, true)
  <-> exists (sb : stat) (linkbuf : string),
        sys_lstat w linkpath = Done sb
        /\ Z.land (st_mode sb) S_IFMT = S_IFLNK
        /\ Z.land (st_mode sb) ALLPERMS = ACCESSPERMS
        /\ readlink w linkpath (PATH_MAX + 1) = Done linkbuf
        /\ String.prefix linkbuf destpath = true.
Proof.
  unfold check_link, check_internal.
  destruct (sys_lstat w linkpath) as [e|sb] eqn:Hstat.
  - split.
    + cbv zeta. destruct (Z.pos e =? ENOENT); cbn; intros [=].
    + intros (sb & linkbuf & [=] & _).
  - pose proof (check_mode_iff sb ID_NONE ID_NONE
                  (Z.lor S_IFLNK ACCESSPERMS)) as Hmode.
    change (Z.land (Z.lor S_IFLNK ACCESSPERMS) S_IFMT) with S_IFLNK in Hmode.
    change (Z.land (Z.lor S_IFLNK ACCESSPERMS) ALLPERMS)
      with ACCESSPERMS in Hmode.
    destruct (check_mode (Some sb) _ _ _); cbn -[Nat.add readlink].
    + destruct (readlink w linkpath (PATH_MAX + 1)) as [e|linkbuf] eqn:Hlink.
      * split; [intros [=]|]. intros (sb' & linkbuf & _ & _ & _ & [=] & _).
      * rewrite strncmp_strcmp.
        destruct (Z.eqb_spec
                    (strcmp linkbuf
                       (substring 0 (String.length linkbuf) destpath)) 0)
          as [E|E]; cbn [negb]; rewrite strcmp_eq in E.
        -- split; [intros _|reflexivity].
           exists sb, linkbuf.
           assert (Hm : true = true) by reflexivity.
           apply Hmode in Hm as (Ht & Hp & _).
           repeat split; try congruence.
           apply prefix_correct. congruence.
        -- split; [intros [=]|].
           intros (sb' & linkbuf' & _ & _ & _ & [= <-] & Hpre).
           apply prefix_correct in Hpre. congruence.
    + split; [intros [=]|].
      intros (sb' & linkbuf & [= <-] & Ht & Hp & _).
      assert (Hf : false = true); [|discriminate].
      apply Hmode. repeat split; auto.
Qed.

(** *** The leftover check and the check before installing *)

Lemma check_symlinks_presence_loop_ok (w : world)
    (links : list authselect_symlink) (ex : bool) :
  Forall (fun s => probed w (name s)) links ->
  check_symlinks_presence_loop w links ex
  = (EOK, ex || existsb (fun s => check_exists w (name s) =? EOK) links).
Proof.
  intros H. revert ex. induction H as [|s links Hs _ IH]; intros ex.
  - cbn. now rewrite orb_false_r.
  - cbn [check_symlinks_presence_loop existsb].
    destruct Hs as [Hs|Hs]; rewrite Hs; cbn [Z.eqb EOK ENOENT Pos.eqb negb orb];
      rewrite IH; [now rewrite orb_true_r | reflexivity].
Qed.

Lemma check_symlinks_presence_loop_abort (w : world)
    (pre post : list authselect_symlink) (s : authselect_symlink)
    (ex : bool) :
  Forall (fun s => probed w (name s)) pre ->
  ~ probed w (name s) ->
  fst (check_symlinks_presence_loop w (pre ++ s :: post) ex)
  = check_exists w (name s).
Proof.
  intros H Hs. revert ex. induction H as [|s' pre Hs' _ IH]; intros ex.
  - cbn [app check_symlinks_presence_loop]. unfold probed in Hs.
    destruct (Z.eqb_spec (check_exists w (name s)) EOK); [tauto|].
    destruct (Z.eqb_spec (check_exists w (name s)) ENOENT); [tauto|].
    reflexivity.
  - cbn [app check_symlinks_presence_loop].
    destruct Hs' as [Hs'|Hs']; rewrite Hs'; cbn [Z.eqb EOK ENOENT Pos.eqb negb];
      apply IH.
Qed.

(** X9. authselect_check_symlinks_presence looks at every link path, also
    after it has found one: when access answers EOK or ENOENT for each, it
    returns EOK and the flag says whether any of the paths exists. The first
    path for which access fails otherwise ends it with that error, and the
    flag is not written. *)
Theorem symlinks_presence_any (w : world) (v : bool) :
  (Forall (fun s => probed w (name s)) (SYMLINK_FILES w) ->
   authselect_check_symlinks_presence w v
   = (EOK,
      existsb (fun s => check_exists w (name s) =? EOK) (SYMLINK_FILES w)))
  /\ (forall (pre post : list authselect_symlink) (s : authselect_symlink),
        SYMLINK_FILES w = pre ++ s :: post ->
        Forall (fun s => probed w (name s)) pre ->
        ~ probed w (name s) ->
        authselect_check_symlinks_presence w v
        = (check_exists w (name s), v)).
Proof.
  unfold authselect_check_symlinks_presence. split.
  - intros H. now rewrite (check_symlinks_presence_loop_ok w _ false H).
  - intros pre post s Hlinks Hpre Hs.
    pose proof (check_symlinks_presence_loop_abort w pre post s false
                  Hpre Hs) as E.
    rewrite <- Hlinks in E.
    destruct (check_symlinks_presence_loop w _ false) as [ret ex].
    simpl in E. subst ret. unfold probed in Hs.
    destruct (Z.eqb_spec (check_exists w (name s)) EOK); [tauto|].
    reflexivity.
Qed.

Lemma symlinks_presence_any_witness :
  authselect_check_symlinks_presence host_configured false = (EOK, true)
  /\ authselect_check_symlinks_presence host_link_unreachable false
     = (EACCES, false).
Proof.
  split.
  - rewrite (proj1 (symlinks_presence_any host_configured false));
      [reflexivity|].
    repeat constructor.
  - apply (proj2 (symlinks_presence_any host_link_unreachable false)
             [] [] nsswitch_symlink).
    + reflexivity.
    + constructor.
    + vm_compute. intros [H|H]; discriminate.
Defined.

Lemma check_missing_files_loop_ok (w : world)
    (gens : list authselect_generated) (r : bool) :
  Forall (fun g => probed w (path g)) gens ->
  check_missing_files_loop w gens r
  = (EOK, r && forallb (fun g => check_exists w (path g) =? ENOENT) gens).
Proof.
  intros H. revert r. induction H as [|g gens Hg _ IH]; intros r.
  - cbn. now rewrite andb_true_r.
  - cbn [check_missing_files_loop forallb].
    destruct Hg as [Hg|Hg]; rewrite Hg; cbn [Z.eqb EOK ENOENT Pos.eqb negb];
      rewrite IH; cbn [andb]; [now rewrite andb_false_r | reflexivity].
Qed.

Lemma check_missing_links_loop_ok (w : world)
    (links : list authselect_symlink) (r v : bool) :
  Forall (fun s =>
            check_exists w (name s) = ENOENT
            \/ (check_exists w (name s) = EOK
                /\ fst (check_notalink w (name s) (dest s) false) = EOK))
    links ->
  check_missing_links_loop w links r v
  = (EOK, r && forallb (fun s => negb (link_left w s)) links).
Proof.
  intros H. revert r v. induction H as [|s links Hs _ IH]; intros r v.
  - cbn. now rewrite andb_true_r.
  - cbn [check_missing_links_loop forallb]. unfold link_left at 1.
    destruct Hs as [Hs|[Hs Hn]]; rewrite Hs; cbn [Z.eqb EOK ENOENT Pos.eqb negb].
    + rewrite IH. reflexivity.
    + destruct (check_notalink_cell w (name s) (dest s) v) as [_ E].
      rewrite (E Hn).
      destruct (check_notalink w (name s) (dest s) false) as [ret b].
      simpl in Hn. subst ret. cbn [Z.eqb EOK negb snd andb].
      rewrite IH. destruct b, r; reflexivity.
Qed.

(** X10. When no call fails otherwise (access answers EOK or ENOENT, and
    check_notalink returns EOK for the link paths that exist),
    check_missing_conf returns EOK and reports the host clean exactly when
    access finds none of the generated files and none of the link paths
    that exist is a symbolic link check_notalink takes for one of
    authselect. All paths are looked at. *)
Theorem check_missing_conf_clean_iff (w : world) (v : bool) :
  Forall (fun g => probed w (path g)) (GENERATED_FILES_PATHS w) ->
  Forall (fun s =>
            check_exists w (name s) = ENOENT
            \/ (check_exists w (name s) = EOK
                /\ fst (check_notalink w (name s) (dest s) false) = EOK))
    (SYMLINK_FILES w) ->
  check_missing_conf w v
  = (EOK,
     forallb (fun g => check_exists w (path g) =? ENOENT)
       (GENERATED_FILES_PATHS w)
     && forallb (fun s => negb (link_left w s)) (SYMLINK_FILES w)).
Proof.
  intros Hg Hl. unfold check_missing_conf.
  rewrite (check_missing_files_loop_ok w _ true Hg). cbn [Z.eqb EOK negb andb].
  now rewrite (check_missing_links_loop_ok w _ _ _ Hl).
Qed.

Lemma check_missing_conf_clean_iff_witness :
  check_missing_conf host_unconfigured_files_left true = (EOK, false)
  /\ link_left host_unconfigured_files_left nsswitch_symlink = false.
Proof.
  split; [|reflexivity].
  rewrite check_missing_conf_clean_iff.
  - reflexivity.
  - repeat constructor.
  - constructor; [|constructor]. right. split; reflexivity.
Defined.

(** X11. The leftover check asks access(2) first, and access follows
    symbolic links. When access reports every generated file and every link
    path as missing, check_missing_conf returns clean without lstat or
    readlink being asked: a link of authselect whose destination has been
    removed is not found. *)
Theorem check_missing_conf_trusts_access (w : world) (v : bool) :
  Forall (fun g => check_exists w (path g) = ENOENT)
    (GENERATED_FILES_PATHS w) ->
  Forall (fun s => check_exists w (name s) = ENOENT) (SYMLINK_FILES w) ->
  check_missing_conf w v = (EOK, true).
Proof.
  intros Hg Hl. unfold check_missing_conf.
  assert (Hfiles : forall r,
            check_missing_files_loop w (GENERATED_FILES_PATHS w) r
            = (EOK, r)).
  { induction Hg as [|g gens Hg _ IH]; intros r; [reflexivity|].
    cbn [check_missing_files_loop]. rewrite Hg. apply IH. }
  rewrite Hfiles. cbn [Z.eqb EOK negb].
  assert (Hlinks : forall r b,
            check_missing_links_loop w (SYMLINK_FILES w) r b = (EOK, r)).
  { induction Hl as [|s links Hs _ IH]; intros r b; [reflexivity|].
    cbn [check_missing_links_loop]. rewrite Hs. apply IH. }
  now rewrite Hlinks.
Qed.

Lemma check_missing_conf_trusts_access_witness :
  sys_readlink host_unconfigured_dangling_link "/etc/nsswitch.conf"
  = Done (dest nsswitch_symlink)
  /\ check_notalink host_unconfigured_dangling_link (name nsswitch_symlink)
       (dest nsswitch_symlink) true = (EOK, false)
  /\ check_missing_conf host_unconfigured_dangling_link false = (EOK, true).
Proof.
  split; [reflexivity|]. split; [reflexivity|].
  apply check_missing_conf_trusts_access; repeat constructor.
Defined.

(** *** Reading a text file *)

Lemma c_str_text (good : string) :
  ~ In NUL (list_ascii_of_string good) -> c_str good = good.
Proof.
  induction good as [|c good IH]; simpl; intros H; [reflexivity|].
  destruct (Ascii.eqb_spec c NUL) as [->|_]; [tauto|].
  f_equal. apply IH. tauto.
Qed.

Lemma c_str_cut (good junk : string) :
  ~ In NUL (list_ascii_of_string good) ->
  c_str (String.append good (String NUL junk)) = good.
Proof.
  induction good as [|c good IH]; simpl; intros H; [reflexivity|].
  destruct (Ascii.eqb_spec c NUL) as [->|_]; [tauto|].
  f_equal. apply IH. tauto.
Qed.

(** X12. read_textfile hands on the bytes of the file up to the first NUL
    byte: a file without a NUL byte is read whole, and what follows a NUL
    byte is dropped without an error. When fread delivers another number of
    bytes than ftell announced, the result is EIO. On every return other
    than EOK the caller's pointer is left as it was. *)
Theorem read_textfile_text (w : world) (filepath : string)
    (c0 : option string) :
  (forall (file : FILE) (good junk : string),
     fopen w filepath = Done file ->
     fseek_end file = Done tt ->
     ftell file = Done (String.length (fread file)) ->
     malloc_ok file = true ->
     ~ In NUL (list_ascii_of_string good) ->
     fread file = good
     \/ fread file = String.append good (String NUL junk) ->
     read_textfile w filepath c0 = (EOK, Some good))
  /\ (forall (file : FILE) (filelen : nat),
        fopen w filepath = Done file ->
        fseek_end file = Done tt ->
        ftell file = Done filelen ->
        malloc_ok file = true ->
        String.length (fread file) <> filelen ->
        read_textfile w filepath c0 = (EIO, c0))
  /\ (forall (ret : errno_t) (c : option string),
        read_textfile w filepath c0 = (ret, c) -> ret <> EOK -> c = c0).
Proof.
  unfold read_textfile, read_textfile_internal. repeat apply conj.
  - intros file good junk -> -> -> -> Hgood Hbytes.
    rewrite Nat.eqb_refl. cbn [negb]. do 2 f_equal.
    destruct Hbytes as [->| ->]; [now apply c_str_text | now apply c_str_cut].
  - intros file filelen -> -> -> -> Hlen. cbn [negb].
    apply Nat.eqb_neq in Hlen. now rewrite Hlen.
  - intros ret c.
    destruct (fopen w filepath) as [e|file]; [now intros [= <- <-]|].
    destruct (fseek_end file) as [e|_]; [now intros [= <- <-]|].
    destruct (ftell file) as [e|filelen]; [now intros [= <- <-]|].
    destruct (malloc_ok file); cbn [negb]; [|now intros [= <- <-]].
    destruct (Nat.eqb _ _); cbn [negb]; intros [= <- <-]; congruence.
Qed.

Lemma read_textfile_text_witness :
  read_textfile host_configured_NUL "/etc/authselect/nsswitch.conf" None
  = (EOK, Some nsswitch_text)
  /\ authselect_check_conf host_configured_NUL false = (EOK, true).
Proof.
  split; [|vm_compute; reflexivity].
  eapply (proj1 (read_textfile_text host_configured_NUL
                   "/etc/authselect/nsswitch.conf" None)
            _ nsswitch_text "passwd: files").
  - reflexivity.
  - reflexivity.
  - reflexivity.
  - reflexivity.
  - vm_compute. intuition discriminate.
  - right. reflexivity.
Defined.

(** *** Reading a profile directory *)

Section DirReaderFacts.

Variable opendir : string -> sysret DIR.
Variable calloc_dir_fails : bool.
Variable calloc_fails : nat -> bool.
Variable strdup_fails : string -> bool.
Variable reallocarray_fails : nat -> bool.

Lemma reallocarray_terminated (names : list string) :
  reallocarray ((Some <$> names) ++ [None]) (length names + 2)
  = (Some <$> names) ++ [None; None].
Proof.
  unfold reallocarray. rewrite <- app_assoc.
  rewrite take_app, length_fmap, take_ge by (rewrite length_fmap; lia).
  replace (length names + 2 - length names)%nat with 2%nat by lia.
  replace (length names + 2)%nat with (S (length names + 1)) by lia.
  reflexivity.
Qed.

Lemma add_profile_dir_with (fd : Z) (dirstream : option DIR) (path : string)
    (names : list string) (name : string) :
  strdup_fails name = false ->
  reallocarray_fails (length names + 2) = false ->
  authselect_dir_add_profile strdup_fails reallocarray_fails
    (dir_with fd dirstream path names) (Some name)
  = (EOK, dir_with fd dirstream path (names ++ [name])).
Proof.
  intros Hs Hr. unfold authselect_dir_add_profile, strdup, dir_with.
  cbn [ad_fd ad_dirstream ad_path ad_profiles ad_num_profiles].
  rewrite Hs, Hr, reallocarray_terminated. do 2 f_equal.
  - rewrite insert_app_r_alt by (rewrite length_fmap; lia).
    rewrite insert_app_r_alt by (rewrite length_fmap; lia).
    rewrite length_fmap.
    replace (length names + 1 - length names)%nat with 1%nat by lia.
    rewrite Nat.sub_diag. cbn. rewrite fmap_app, <- app_assoc. reflexivity.
  - rewrite length_app. simpl. lia.
Qed.

Lemma string_array_take (names : list string) :
  string_array (take (length names) ((Some <$> names) ++ [None])) = names.
Proof.
  rewrite take_app_length' by (now rewrite length_fmap).
  induction names as [|n names IH]; [reflexivity|].
  rewrite fmap_cons. cbn [string_array]. now rewrite IH.
Qed.

Lemma is_dot (d_name : string) :
  (strcmp d_name "." =? 0) || (strcmp d_name ".." =? 0)
  = String.eqb d_name "." || String.eqb d_name "..".
Proof.
  f_equal.
  - destruct (Z.eqb_spec (strcmp d_name ".") 0) as [E|E],
      (String.eqb_spec d_name "."); rewrite strcmp_eq in E; congruence.
  - destruct (Z.eqb_spec (strcmp d_name "..") 0) as [E|E],
      (String.eqb_spec d_name ".."); rewrite strcmp_eq in E; congruence.
Qed.

(** X13. authselect_dir_add_profile puts the name behind the profiles the
    struct holds, keeps the array NULL-terminated and num_profiles equal to
    the number of names. When it fails (a NULL name gives EINVAL, a failed
    allocation ENOMEM) the struct is as before. *)
Theorem authselect_dir_add_profile_appends (dir : struct_authselect_dir)
    (name : option string) :
  (forall (names : list string) (n : string),
     ad_profiles dir = (Some <$> names) ++ [None] ->
     ad_num_profiles dir = length names ->
     name = Some n ->
     strdup_fails n = false ->
     reallocarray_fails (length names + 2) = false ->
     exists dir' : struct_authselect_dir,
       authselect_dir_add_profile strdup_fails reallocarray_fails dir name
       = (EOK, dir')
       /\ ad_profiles dir' = (Some <$> (names ++ [n])) ++ [None]
       /\ ad_num_profiles dir' = length (names ++ [n])
       /\ profiles (dir_view dir') = profiles (dir_view dir) ++ [n])
  /\ (forall (ret : errno_t) (dir' : struct_authselect_dir),
        authselect_dir_add_profile strdup_fails reallocarray_fails dir name
        = (ret, dir') ->
        ret <> EOK -> dir' = dir)
  /\ (name = None ->
      authselect_dir_add_profile strdup_fails reallocarray_fails dir name
      = (EINVAL, dir)).
Proof.
  repeat apply conj.
  - intros names n Hp Hn -> Hs Hr.
    destruct dir as [fd dirstream path array num]. cbn in Hp, Hn. subst.
    change (Build_struct_authselect_dir fd dirstream path
              ((Some <$> names) ++ [None]) (length names))
      with (dir_with fd dirstream path names).
    rewrite add_profile_dir_with by assumption.
    eexists. split; [reflexivity|].
    split; [reflexivity|]. split; [reflexivity|].
    unfold dir_view, dir_with. cbn [profiles ad_profiles ad_num_profiles].
    now rewrite !string_array_take.
  - intros ret dir'. unfold authselect_dir_add_profile.
    destruct name as [n|]; [|now intros [= <- <-]].
    destruct (strdup strdup_fails n); [|now intros [= <- <-]].
    destruct (reallocarray_fails _); [now intros [= <- <-]|].
    intros [= <- <-]. congruence.
  - intros ->. reflexivity.
Qed.

Hypothesis strdup_ok : forall s : string, strdup_fails s = false.
Hypothesis reallocarray_ok : forall n : nat, reallocarray_fails n = false.
Hypothesis calloc_dir_ok : calloc_dir_fails = false.
Hypothesis calloc_ok : forall n : nat, calloc_fails n = false.

Lemma authselect_dir_read_loop_ok (dirstream : DIR) (entries : list string)
    (fd : Z) (ds : option DIR) (path : string) (names : list string) :
  Forall (entry_readable dirstream) entries ->
  authselect_dir_read_loop strdup_fails reallocarray_fails dirstream entries
    (dir_with fd ds path names)
  = (match d_errno dirstream with
     | Some e => Z.pos e
     | None => EOK
     end,
     dir_with fd ds path
       (names ++ filter (fun n => is_profile_entry dirstream n) entries)).
Proof.
  intros H. revert names. induction H as [|n entries Hn _ IH]; intros names.
  - cbn [authselect_dir_read_loop]. rewrite filter_nil, app_nil_r.
    now destruct (d_errno dirstream).
  - cbn [authselect_dir_read_loop]. rewrite is_dot.
    destruct (String.eqb n "." || String.eqb n "..") eqn:Hdot; cbn [negb andb].
    + rewrite filter_cons_False
        by (unfold is_profile_entry; rewrite Hdot; cbn; tauto).
      apply IH.
    + destruct Hn as [->|[->|[statres Hst]]]; [discriminate..|].
      rewrite Hst. destruct (S_ISDIR (st_mode statres)) eqn:Hdir; cbn [negb].
      * rewrite filter_cons_True
          by (unfold is_profile_entry; rewrite Hdot, Hst, Hdir; cbn; tauto).
        rewrite add_profile_dir_with by auto. cbn [Z.eqb EOK negb].
        rewrite IH, <- app_assoc. reflexivity.
      * rewrite filter_cons_False
          by (unfold is_profile_entry; rewrite Hdot, Hst, Hdir; cbn; tauto).
        apply IH.
Qed.

Lemma authselect_dir_read_loop_abort (dirstream : DIR)
    (pre post : list string) (n : string) (e : positive) (fd : Z)
    (ds : option DIR) (path : string) (names : list string) :
  Forall (entry_readable dirstream) pre ->
  n <> "." -> n <> ".." ->
  d_fstatat dirstream n = Fail e ->
  fst (authselect_dir_read_loop strdup_fails reallocarray_fails dirstream
         (pre ++ n :: post) (dir_with fd ds path names))
  = Z.pos e.
Proof.
  intros H Hn1 Hn2 Hst. revert names.
  induction H as [|m pre Hm _ IH]; intros names.
  - cbn [app authselect_dir_read_loop]. rewrite is_dot.
    apply String.eqb_neq in Hn1, Hn2. rewrite Hn1, Hn2, Hst. reflexivity.
  - cbn [app authselect_dir_read_loop]. rewrite is_dot.
    destruct (String.eqb m "." || String.eqb m "..") eqn:Hdot; [apply IH|].
    destruct Hm as [->|[->|[statres Hm]]]; [discriminate..|].
    rewrite Hm. destruct (S_ISDIR (st_mode statres)); cbn [negb]; [|apply IH].
    rewrite add_profile_dir_with by auto. cbn [Z.eqb EOK negb]. apply IH.
Qed.

Lemma authselect_dir_open_ok (path : string) (dirstream : DIR) (fd : Z)
    (v : option struct_authselect_dir) :
  opendir path = Done dirstream -> d_fd dirstream = Done fd ->
  authselect_dir_open opendir calloc_dir_fails calloc_fails strdup_fails
    (Some path) v
  = (EOK, Some (dir_with fd (Some dirstream) path [])).
Proof.
  intros Ho Hf. unfold authselect_dir_open, authselect_dir_init, strdup.
  rewrite calloc_dir_ok, strdup_ok, calloc_ok. cbn [Z.eqb EOK].
  now rewrite Ho, Hf.
Qed.

(** X14. A profile directory that does not exist is not an error: with no
    allocation failing, authselect_dir_read returns EOK and a struct without profiles, whose
    array holds the NULL terminator only and which has no open stream. *)
Theorem authselect_dir_read_missing (path : string)
    (v : option struct_authselect_dir) :
  opendir path = Fail errno_ENOENT ->
  authselect_dir_read opendir calloc_dir_fails calloc_fails strdup_fails
    reallocarray_fails (Some path) v
  = (EOK, Some (dir_with (-1) None path []))
  /\ profiles (dir_view (dir_with (-1) None path [])) = []
  /\ ad_profiles (dir_with (-1) None path []) = [None].
Proof.
  intros Ho. split; [|split; reflexivity].
  unfold authselect_dir_read, authselect_dir_open, authselect_dir_init, strdup.
  rewrite calloc_dir_ok, strdup_ok, calloc_ok. cbn [Z.eqb EOK].
  now rewrite Ho.
Qed.

(** X15. When the directory can be opened, fstatat succeeds on every entry
    other than "." and "..", readdir ends without an error and no
    allocation fails,
    authselect_dir_read returns the entries that are directories, without
    "." and "..", in the order readdir gave them; files and other entries
    are passed over. The array is NULL-terminated, num_profiles is the
    number of names, and a name is listed twice only if readdir returned it
    twice. *)
Theorem authselect_dir_read_lists_subdirectories (path : string)
    (dirstream : DIR) (fd : Z) (v : option struct_authselect_dir) :
  opendir path = Done dirstream ->
  d_fd dirstream = Done fd ->
  d_errno dirstream = None ->
  Forall (entry_readable dirstream) (d_entries dirstream) ->
  exists dir : struct_authselect_dir,
    authselect_dir_read opendir calloc_dir_fails calloc_fails strdup_fails
      reallocarray_fails (Some path) v = (EOK, Some dir)
    /\ profiles (dir_view dir)
       = filter (fun n => is_profile_entry dirstream n) (d_entries dirstream)
    /\ ad_profiles dir = (Some <$> profiles (dir_view dir)) ++ [None]
    /\ ad_num_profiles dir = length (profiles (dir_view dir))
    /\ ad_path dir = path
    /\ (NoDup (d_entries dirstream) -> NoDup (profiles (dir_view dir))).
Proof.
  intros Ho Hf He Hr.
  exists (dir_with fd (Some dirstream) path
            (filter (fun n => is_profile_entry dirstream n)
               (d_entries dirstream))).
  assert (Hview : forall names,
            profiles (dir_view (dir_with fd (Some dirstream) path names))
            = names).
  { intros names. unfold dir_view, dir_with.
    cbn [profiles ad_profiles ad_num_profiles]. apply string_array_take. }
  rewrite Hview. repeat apply conj; try reflexivity.
  - unfold authselect_dir_read.
    rewrite (authselect_dir_open_ok path dirstream fd None Ho Hf).
    cbn [Z.eqb EOK ENOENT negb dir_with ad_dirstream].
    change (Build_struct_authselect_dir fd (Some dirstream) path
              ((Some <$> []) ++ [None]) (length (@nil string)))
      with (dir_with fd (Some dirstream) path []).
    rewrite (authselect_dir_read_loop_ok dirstream _ _ _ _ [] Hr), He.
    reflexivity.
  - apply NoDup_filter.
Qed.

(** X16. With no allocation failing, one entry on which fstatat fails ends
    the read with the errno of fstatat, and the caller's pointer is left as it was. So a symbolic link
    in the directory whose target is gone makes the read fail with ENOENT,
    whereas a directory that does not exist gives EOK. *)
Theorem authselect_dir_read_fstatat_fails (path : string) (dirstream : DIR)
    (fd : Z) (v : option struct_authselect_dir) (pre post : list string)
    (n : string) (e : positive) :
  opendir path = Done dirstream ->
  d_fd dirstream = Done fd ->
  d_entries dirstream = pre ++ n :: post ->
  Forall (entry_readable dirstream) pre ->
  n <> "." -> n <> ".." ->
  d_fstatat dirstream n = Fail e ->
  authselect_dir_read opendir calloc_dir_fails calloc_fails strdup_fails
    reallocarray_fails (Some path) v
  = (Z.pos e, v).
Proof.
  intros Ho Hf Hent Hpre Hn1 Hn2 Hst. unfold authselect_dir_read.
  rewrite (authselect_dir_open_ok path dirstream fd None Ho Hf).
  cbn [Z.eqb EOK ENOENT negb dir_with ad_dirstream].
  change (Build_struct_authselect_dir fd (Some dirstream) path
            ((Some <$> []) ++ [None]) (length (@nil string)))
    with (dir_with fd (Some dirstream) path []).
  pose proof (authselect_dir_read_loop_abort dirstream pre post n e fd
                (Some dirstream) path [] Hpre Hn1 Hn2 Hst) as E.
  rewrite <- Hent in E.
  destruct (authselect_dir_read_loop _ _ _ _ _) as [ret dir].
  simpl in E. subst ret. reflexivity.
Qed.

(** X17. When readdir fails after it has returned entries (and no
    allocation fails), the names collected so far are given up: authselect_dir_read returns the errno of
    readdir and leaves the caller's pointer as it was. *)
Theorem authselect_dir_read_readdir_fails (path : string) (dirstream : DIR)
    (fd : Z) (v : option struct_authselect_dir) (e : positive) :
  opendir path = Done dirstream ->
  d_fd dirstream = Done fd ->
  d_errno dirstream = Some e ->
  Forall (entry_readable dirstream) (d_entries dirstream) ->
  authselect_dir_read opendir calloc_dir_fails calloc_fails strdup_fails
    reallocarray_fails (Some path) v
  = (Z.pos e, v).
Proof.
  intros Ho Hf He Hr. unfold authselect_dir_read.
  rewrite (authselect_dir_open_ok path dirstream fd None Ho Hf).
  cbn [Z.eqb EOK ENOENT negb dir_with ad_dirstream].
  change (Build_struct_authselect_dir fd (Some dirstream) path
            ((Some <$> []) ++ [None]) (length (@nil string)))
    with (dir_with fd (Some dirstream) path []).
  rewrite (authselect_dir_read_loop_ok dirstream _ _ _ _ [] Hr), He.
  reflexivity.
Qed.

End DirReaderFacts.

Ltac entries_readable :=
  repeat (constructor;
          [first [ left; reflexivity
                 | right; left; reflexivity
                 | right; right; eexists; reflexivity ] |]);
  try constructor.

Lemma authselect_dir_add_profile_appends_witness :
  exists dir' : struct_authselect_dir,
    authselect_dir_add_profile (fun _ => false) (fun _ => false)
      (dir_with 3 None "/usr/share/authselect/default" ["sssd"])
      (Some "winbind") = (EOK, dir')
    /\ ad_profiles dir' = (Some <$> (["sssd"] ++ ["winbind"])) ++ [None]
    /\ ad_num_profiles dir' = length (["sssd"] ++ ["winbind"])
    /\ profiles (dir_view dir')
       = profiles (dir_view (dir_with 3 None "/usr/share/authselect/default"
                               ["sssd"])) ++ ["winbind"].
Proof.
  apply (proj1 (authselect_dir_add_profile_appends
                  (fun _ => false) (fun _ => false)
                  (dir_with 3 None "/usr/share/authselect/default" ["sssd"])
                  (Some "winbind")) ["sssd"] "winbind");
    reflexivity.
Defined.

Lemma authselect_dir_read_missing_witness :
  authselect_dir_read (opendir_default false None) false (fun _ => false)
    (fun _ => false) (fun _ => false) (Some "/usr/share/authselect/vendor")
    None
  = (EOK, Some (dir_with (-1) None "/usr/share/authselect/vendor" [])).
Proof.
  apply authselect_dir_read_missing; reflexivity.
Defined.

Lemma authselect_dir_read_lists_subdirectories_witness :
  exists dir : struct_authselect_dir,
    authselect_dir_read (opendir_default false None) false (fun _ => false)
      (fun _ => false) (fun _ => false)
      (Some "/usr/share/authselect/default") None = (EOK, Some dir)
    /\ profiles (dir_view dir) = ["sssd"; "winbind"].
Proof.
  destruct (authselect_dir_read_lists_subdirectories
              (opendir_default false None) false (fun _ => false)
              (fun _ => false) (fun _ => false)
              (fun _ => eq_refl) (fun _ => eq_refl) eq_refl
              (fun _ => eq_refl)
              "/usr/share/authselect/default" (profile_stream false None) 3
              None eq_refl eq_refl eq_refl)
    as (dir & Hread & Hlist & _).
  - entries_readable.
  - exists dir. split; [exact Hread|]. rewrite Hlist. reflexivity.
Defined.

Lemma authselect_dir_read_fstatat_fails_witness :
  authselect_dir_read (opendir_default true None) false (fun _ => false)
    (fun _ => false) (fun _ => false)
    (Some "/usr/share/authselect/default") None
  = (ENOENT, None).
Proof.
  apply (authselect_dir_read_fstatat_fails
           (opendir_default true None) false (fun _ => false)
           (fun _ => false) (fun _ => false)
           (fun _ => eq_refl) (fun _ => eq_refl) eq_refl (fun _ => eq_refl)
           "/usr/share/authselect/default" (profile_stream true None) 3
           None ["."; ".."; "sssd"] ["README"; "winbind"] "old" errno_ENOENT);
    try reflexivity; try discriminate.
  entries_readable.
Defined.

Lemma authselect_dir_read_readdir_fails_witness :
  authselect_dir_read (opendir_default false (Some 5%positive)) false
    (fun _ => false) (fun _ => false) (fun _ => false)
    (Some "/usr/share/authselect/default") None
  = (EIO, None).
Proof.
  apply (authselect_dir_read_readdir_fails
           (opendir_default false (Some 5%positive)) false (fun _ => false)
           (fun _ => false) (fun _ => false)
           (fun _ => eq_refl) (fun _ => eq_refl) eq_refl (fun _ => eq_refl)
           "/usr/share/authselect/default"
           (profile_stream false (Some 5%positive)) 3 None 5%positive);
    try reflexivity.
  entries_readable.
Defined.

(** X18. Whatever fails in authselect_dir_read (a NULL path gives EINVAL, a
    failed allocation ENOMEM, opendir, dirfd, fstatat and readdir their
    errno), a return other than EOK leaves the caller's pointer as it
    was. *)
Theorem authselect_dir_read_keeps_pointer (opendir : string -> sysret DIR)
    (calloc_dir_fails : bool) (calloc_fails : nat -> bool)
    (strdup_fails : string -> bool) (reallocarray_fails : nat -> bool)
    (dirpath : option string) (v : option struct_authselect_dir) :
  (forall (ret : errno_t) (out : option struct_authselect_dir),
     authselect_dir_read opendir calloc_dir_fails calloc_fails strdup_fails
       reallocarray_fails dirpath v = (ret, out) ->
     ret <> EOK -> out = v)
  /\ (dirpath = None ->
      authselect_dir_read opendir calloc_dir_fails calloc_fails strdup_fails
        reallocarray_fails dirpath v = (EINVAL, v)).
Proof.
  split.
  - intros ret out. unfold authselect_dir_read.
    destruct (authselect_dir_open _ _ _ _ _ _) as [r d].
    destruct (r =? ENOENT); [intros [= <- <-]; congruence|].
    destruct (negb (r =? EOK)); [now intros [= <- <-]|].
    destruct d as [dir|]; [|now intros [= <- <-]].
    destruct (ad_dirstream dir) as [dirstream|]; [|now intros [= <- <-]].
    destruct (authselect_dir_read_loop _ _ _ _ _) as [r' dir'].
    destruct (negb (r' =? EOK)); intros [= <- <-]; congruence.
  - intros ->. reflexivity.
Qed.

Lemma authselect_dir_read_keeps_pointer_witness :
  snd (authselect_dir_read (opendir_default true None) true (fun _ => false)
         (fun _ => false) (fun _ => false)
         (Some "/usr/share/authselect/default")
         (Some (dir_with 7 None "/etc/authselect/custom" ["lab"])))
  = Some (dir_with 7 None "/etc/authselect/custom" ["lab"]).
Proof.
  apply (proj1 (authselect_dir_read_keeps_pointer
                  (opendir_default true None) true (fun _ => false)
                  (fun _ => false) (fun _ => false)
                  (Some "/usr/share/authselect/default")
                  (Some (dir_with 7 None "/etc/authselect/custom" ["lab"])))
           ENOMEM).
  - reflexivity.
  - discriminate.
Defined.

(** *** trimline *)

Lemma trimline_begin_split (s : string) :
  exists lead : string,
    all_space lead = true
    /\ s = String.append lead (trimline_begin s)
    /\ (trimline_begin s = EmptyString
        \/ isspace (deref (trimline_begin s)) = false).
Proof.
  induction s as [|c s (lead & Hl & Hs & Hr)].
  - exists EmptyString. simpl. tauto.
  - simpl. destruct (isspace c) eqn:Hc.
    + exists (String c lead). simpl. rewrite Hc, Hl. simpl.
      split; [reflexivity|].
      split; [|exact Hr].
      change (String c s
              = String c (String.append lead (trimline_begin s))).
      now f_equal.
    + exists EmptyString. simpl. split; [reflexivity|].
      split; [reflexivity|]. now right.
Qed.

Lemma all_space_begin (s : string) :
  all_space s = true -> trimline_begin s = EmptyString.
Proof.
  induction s as [|c s IH]; simpl; [reflexivity|].
  destruct (isspace c); simpl; [exact IH | discriminate].
Qed.

Lemma all_space_append (a b : string) :
  all_space (String.append a b) = all_space a && all_space b.
Proof.
  induction a as [|c a IH]; simpl; [reflexivity|].
  now rewrite IH, andb_assoc.
Qed.

Lemma substring_full (s : string) : substring 0 (String.length s) s = s.
Proof. induction s as [|c s IH]; simpl; [reflexivity | now f_equal]. Qed.

Lemma append_nil_l (s : string) : String.append EmptyString s = s.
Proof. reflexivity. Qed.

Lemma append_cons (c : ascii) (a b : string) :
  String.append (String c a) b = String c (String.append a b).
Proof. reflexivity. Qed.

Lemma substring_split (s : string) (n : nat) :
  (n <= String.length s)%nat ->
  s = String.append (substring 0 n s)
        (substring n (String.length s - n) s).
Proof.
  revert n. induction s as [|c s IH]; intros [|n] H; simpl in *;
    try reflexivity; try lia.
  - rewrite append_nil_l. f_equal. symmetry. apply substring_full.
  - rewrite append_cons. f_equal. apply IH. lia.
Qed.

Lemma substring_prefix_length (s : string) (n : nat) :
  (n <= String.length s)%nat -> String.length (substring 0 n s) = n.
Proof.
  revert n. induction s as [|c s IH]; intros [|n] H; simpl in *;
    try reflexivity; try lia.
  f_equal. apply IH. lia.
Qed.

Lemma byte_at_prefix (s : string) (n i : nat) :
  (i < n)%nat -> byte_at (substring 0 n s) i = byte_at s i.
Proof.
  unfold byte_at. revert n i.
  induction s as [|c s IH]; intros [|n] [|i] H; simpl; try reflexivity;
    try lia.
  apply IH. lia.
Qed.

Lemma all_space_pointwise (s : string) :
  (forall i : nat, (i < String.length s)%nat -> isspace (byte_at s i) = true) ->
  all_space s = true.
Proof.
  induction s as [|c s IH]; intros H; [reflexivity|]. simpl.
  assert (H0 : isspace c = true) by (apply (H 0%nat); simpl; lia).
  rewrite H0. simpl. apply IH.
  intros i Hi. apply (H (S i)). simpl. lia.
Qed.

Lemma all_space_suffix (s : string) (n : nat) :
  (forall i : nat,
     (n <= i < String.length s)%nat -> isspace (byte_at s i) = true) ->
  all_space (substring n (String.length s - n) s) = true.
Proof.
  revert n. induction s as [|c s IH]; intros n H.
  - now destruct n.
  - destruct n as [|n].
    + rewrite Nat.sub_0_r, substring_full. apply all_space_pointwise.
      intros i Hi. apply H. lia.
    + simpl. apply IH. intros i Hi. apply (H (S i)). simpl. lia.
Qed.

Lemma trimline_end_spec (s : string) (e : nat) :
  (trimline_end s e <= e)%nat
  /\ (trimline_end s e = 0%nat
      \/ isspace (byte_at s (trimline_end s e)) = false)
  /\ (forall i : nat,
        (trimline_end s e < i <= e)%nat -> isspace (byte_at s i) = true).
Proof.
  induction e as [|e (IH1 & IH2 & IH3)].
  - simpl. repeat split; [lia | now left | intros; lia].
  - cbn [trimline_end]. destruct (isspace (byte_at s (S e))) eqn:Hc.
    + repeat split; [lia | exact IH2 |].
      intros i Hi. destruct (Nat.eq_dec i (S e)) as [->|]; [exact Hc|].
      apply IH3. lia.
    + repeat split; [lia | now right | intros; lia].
Qed.

Lemma trimline_end_stays (s : string) (e : nat) :
  isspace (byte_at s e) = false -> trimline_end s e = e.
Proof. destruct e as [|e]; [reflexivity|]. cbn. now intros ->. Qed.

(** What trimline returns for a string that is not white space only. *)
Lemma trimline_body (strndup_fails : string -> bool) (str : string)
    (v : option string) (body : string) :
  trimline strndup_fails str v = (EOK, Some body) ->
  exists lead trail : string,
    str = String.append lead (String.append body trail)
    /\ all_space lead = true /\ all_space trail = true
    /\ body <> EmptyString
    /\ deref body <> NUL
    /\ isspace (deref body) = false
    /\ isspace (byte_at body (String.length body - 1)) = false.
Proof.
  unfold trimline.
  destruct (trimline_begin_split str) as (lead & Hlead & Hstr & Hrest).
  set (rest := trimline_begin str) in *.
  destruct (Ascii.eqb_spec (deref rest) NUL) as [|Hnul]; [intros [=]|].
  destruct (strndup_fails rest); [intros [=]|]. intros [= <-].
  destruct rest as [|c rest'] eqn:Erest; [now destruct Hnul|].
  destruct Hrest as [|Hfirst]; [discriminate|]. cbn [deref] in Hfirst, Hnul.
  set (s := String c rest') in *.
  set (e := (String.length s - 1)%nat).
  destruct (trimline_end_spec s e) as (Hle & Hlast & Htrail).
  set (e' := trimline_end s e) in *.
  assert (Hlen : (e' + 1 <= String.length s)%nat)
    by (subst e s; simpl in *; lia).
  exists lead, (substring (e' + 1) (String.length s - (e' + 1)) s).
  assert (Hb0 : byte_at (substring 0 (e' + 1) s) 0 = c)
    by (rewrite byte_at_prefix by lia; reflexivity).
  repeat apply conj.
  - rewrite Hstr. f_equal. now apply substring_split.
  - exact Hlead.
  - apply all_space_suffix. intros i Hi. apply Htrail.
    subst e s. simpl in *. lia.
  - replace (e' + 1)%nat with (S e') by lia. discriminate.
  - replace (e' + 1)%nat with (S e') by lia. exact Hnul.
  - replace (e' + 1)%nat with (S e') by lia. exact Hfirst.
  - rewrite substring_prefix_length by exact Hlen.
    replace (e' + 1 - 1)%nat with e' by lia.
    rewrite byte_at_prefix by lia.
    destruct Hlast as [->|Hlast]; [exact Hfirst | exact Hlast].
Qed.

(** X19. trimline gives NULL, with EOK, exactly for a string that is empty
    or white space only. For any other string the result needs an
    allocation: when strndup fails, trimline returns ENOMEM and leaves the
    caller's pointer as it was. *)
Theorem trimline_NULL_iff_blank (strndup_fails : string -> bool)
    (str : string) (v : option string) :
  ~ In NUL (list_ascii_of_string str) ->
  (trimline strndup_fails str v = (EOK, None) <-> all_space str = true)
  /\ (all_space str = false ->
      strndup_fails (trimline_begin str) = true ->
      trimline strndup_fails str v = (ENOMEM, v)).
Proof.
  intros Hnul.
  assert (Hrest : all_space str = false ->
                  Ascii.eqb (deref (trimline_begin str)) NUL = false).
  { clear v. induction str as [|c s IH]; simpl; [discriminate|].
    simpl in Hnul. destruct (isspace c) eqn:Hc; simpl.
    - intros H. apply IH; tauto.
    - intros _. apply Ascii.eqb_neq. intros ->. tauto. }
  unfold trimline. split; [split|].
  - destruct (all_space str) eqn:Hall; [reflexivity|].
    rewrite (Hrest eq_refl). destruct (strndup_fails _); intros [=].
  - intros Hall. now rewrite (all_space_begin str Hall).
  - intros Hall Hfail. now rewrite (Hrest Hall), Hfail.
Qed.

Lemma trimline_NULL_iff_blank_witness :
  trimline (fun _ => false) (unlines ["  "; ""]) (Some "kept")
  = (EOK, None)
  /\ trimline (fun _ => true) (unlines [" with-sssd "]) (Some "kept")
     = (ENOMEM, Some "kept").
Proof.
  split.
  - apply (trimline_NULL_iff_blank (fun _ => false)
             (unlines ["  "; ""]) (Some "kept")).
    + vm_compute. intuition discriminate.
    + reflexivity.
  - apply (trimline_NULL_iff_blank (fun _ => true)
             (unlines [" with-sssd "]) (Some "kept")).
    + vm_compute. intuition discriminate.
    + reflexivity.
    + reflexivity.
Defined.

(** X20. What trimline returns is the string without the white space at
    its begin and at its end: the string is white space, then the result,
    then white space, and the result begins and ends with a byte that is
    not white space; white space inside the result is kept. *)
Theorem trimline_strips_both_ends (strndup_fails : string -> bool)
    (str : string) (v : option string) (body : string) :
  trimline strndup_fails str v = (EOK, Some body) ->
  exists lead trail : string,
    str = String.append lead (String.append body trail)
    /\ all_space lead = true /\ all_space trail = true
    /\ body <> EmptyString
    /\ isspace (deref body) = false
    /\ isspace (byte_at body (String.length body - 1)) = false.
Proof.
  intros H.
  destruct (trimline_body _ _ _ _ H)
    as (lead & trail & H1 & H2 & H3 & H4 & _ & H5 & H6).
  exists lead, trail. tauto.
Qed.

Lemma trimline_strips_both_ends_witness :
  exists lead trail : string,
    unlines ["  with-sssd  with-sudo "]
    = String.append lead (String.append "with-sssd  with-sudo" trail)
    /\ all_space lead = true /\ all_space trail = true
    /\ "with-sssd  with-sudo" <> EmptyString
    /\ isspace (deref "with-sssd  with-sudo") = false
    /\ isspace (byte_at "with-sssd  with-sudo"
                  (String.length "with-sssd  with-sudo" - 1)) = false.
Proof.
  apply (trimline_strips_both_ends (fun _ => false)
           (unlines ["  with-sssd  with-sudo "]) None).
  reflexivity.
Defined.

(** X21. trimline is idempotent: trimming its result again, with the
    allocation succeeding, returns the same string. *)
Theorem trimline_idempotent (strndup_fails : string -> bool) (str : string)
    (v v' : option string) (body : string) :
  trimline strndup_fails str v = (EOK, Some body) ->
  strndup_fails body = false ->
  trimline strndup_fails body v' = (EOK, Some body).
Proof.
  intros H Hok.
  destruct (trimline_body _ _ _ _ H)
    as (_ & _ & _ & _ & _ & Hne & Hnul & Hfirst & Hlast).
  unfold trimline.
  assert (Hbegin : trimline_begin body = body).
  { destruct body as [|c t]; [reflexivity|]. cbn in *. now rewrite Hfirst. }
  rewrite Hbegin, Hok.
  destruct (Ascii.eqb_spec (deref body) NUL); [contradiction|].
  rewrite (trimline_end_stays _ _ Hlast).
  replace (String.length body - 1 + 1)%nat with (String.length body)
    by (destruct body; [contradiction | simpl; lia]).
  now rewrite substring_full.
Qed.

Lemma trimline_idempotent_witness :
  trimline (fun _ => false) "with-sssd  with-sudo" None
  = (EOK, Some "with-sssd  with-sudo").
Proof.
  apply (trimline_idempotent (fun _ => false)
           (unlines ["  with-sssd  with-sudo "]) None None);
    reflexivity.
Defined.
